(** * Handler storage of the TTN handler: session entries, their binary
    codec, the registry and the packet partitioner.

    Shallow embedding of [core/components/handler_storage.go].  Byte arrays
    ([lorawan.EUI64], [lorawan.AES128Key], [lorawan.DevAddr], [partitionId])
    are byte lists; the array length the Go types fix is carried by
    [wf_handlerEntry] where a result depends on it.  A Go [(value, error)]
    return is a [result]; a method that updates its receiver returns the
    receiver after the call.

    [handler_storage.go] calls, and does not define, the entry read-writer
    ([newEntryReadWriter] and its methods), the registry helpers [lookup],
    [store], [resetDB] and [initDB], and the key-value engine under them.
    These are modelled from the specification, each under a comment that
    says so.  [Partition] needs none of them: it is stated over any
    [Lookup], any packet type and any order of [range] over a map. *)

From Stdlib Require Import Strings.Byte NArith.
From stdpp Require Import base option list gmap strings.

Abbreviation byte := Byte.byte.

#[global] Instance byte_eq_dec : EqDecision byte := Byte.byte_eq_dec.
#[global] Instance byte_countable : Countable byte :=
  inj_countable Byte.to_N Byte.of_N Byte.of_to_N.

(** ** Errors *)

(** The natures of error the handler storage hands to its callers.
    [ErrInvalidStructure] and [ErrNotFound] are named by the source;
    [ErrStorageFailure] is the specification's "StorageFailure", any failure
    of the key-value engine. *)
Inductive error : Type :=
  | ErrInvalidStructure
  | ErrNotFound
  | ErrStorageFailure.

#[global] Instance error_eq_dec : EqDecision error.
Proof. solve_decision. Defined.

Inductive result (A : Type) : Type :=
  | Ok (a : A)
  | Err (e : error).
Arguments Ok {A} a.
Arguments Err {A} e.

Definition result_bind {A B} (r : result A) (k : A → result B) : result B :=
  match r with
  | Ok a => k a
  | Err e => Err e
  end.

Notation "x ←! r ; k" := (result_bind r (λ x, k))
  (at level 20, r at level 100, k at level 200, right associativity,
   format "x  ←!  r ;  '/' k").

(** ** Byte arrays *)

Module lorawan.
Definition EUI64 := list byte.
Definition AES128Key := list byte.
Definition DevAddr := list byte.
End lorawan.

(** Go's built-in [copy(dst, src)]: the first [min (len dst) (len src)]
    bytes of [dst] are overwritten, the rest of [dst] stays. *)
Definition copy (dst src : list byte) : list byte :=
  take (length dst) src ++ drop (length src) dst.

(** ** Session entries *)

Record handlerEntry : Type := mkHandlerEntry {
  AppEUI : lorawan.EUI64;
  AppSKey : lorawan.AES128Key;
  DevAddr : lorawan.DevAddr;
  NwkSKey : lorawan.AES128Key
}.

#[global] Instance handlerEntry_eq_dec : EqDecision handlerEntry.
Proof. solve_decision. Defined.

(** The sizes the Go array types give the four fields. *)
Definition wf_handlerEntry (entry : handlerEntry) : Prop :=
  length (AppEUI entry) = 8 ∧ length (AppSKey entry) = 16 ∧
  length (DevAddr entry) = 4 ∧ length (NwkSKey entry) = 16.

#[global] Instance wf_handlerEntry_dec entry : Decision (wf_handlerEntry entry).
Proof. unfold wf_handlerEntry. apply _. Defined.

(** [handlerEntry{}], the zero value. *)
Definition zeroEntry : handlerEntry :=
  {| AppEUI := replicate 8 x00; AppSKey := replicate 16 x00;
     DevAddr := replicate 4 x00; NwkSKey := replicate 16 x00 |}.

Definition partitionId := list byte.

(** ** The entry read-writer *)

Module entryRW.

(** Modelled from the spec: the layout of the buffer of an
    [entryReadWriter], "each [field] written with an explicit length
    prefix".  The prefix is taken to be a 16-bit big-endian count. *)
Definition byteOfN (n : N) : byte := default x00 (Byte.of_N n).

Definition putUint16 (n : nat) : list byte :=
  [byteOfN (N.of_nat n / 256 mod 256); byteOfN (N.of_nat n mod 256)].

Definition getUint16 (buf : list byte) : option (nat * list byte) :=
  match buf with
  | hi :: lo :: rest => Some (N.to_nat (Byte.to_N hi * 256 + Byte.to_N lo), rest)
  | _ => None
  end.

Record entryReadWriter : Type := mkRW {
  err : option error;
  data : list byte
}.

Definition newEntryReadWriter (buf : list byte) : entryReadWriter :=
  {| err := None; data := buf |}.

(** A field as it lies in the buffer: its length, then its bytes. *)
Definition framed (raw : list byte) : list byte :=
  putUint16 (length raw) ++ raw.

(** Modelled from the spec: [entryReadWriter.Write], called and not defined
    by [handler_storage.go].  "Each written with an explicit length
    prefix": the field's length, then its bytes.  A field too long for the
    count is refused, and once an error is latched nothing more is
    written. *)
Definition Write (w : entryReadWriter) (raw : list byte) : entryReadWriter :=
  match err w with
  | Some _ => w
  | None =>
      if decide (N.of_nat (length raw) < 65536)%N
      then {| err := None; data := data w ++ framed raw |}
      else {| err := Some ErrInvalidStructure; data := data w |}
  end.

(** The next field of a buffer and what follows it, when the count and as
    many bytes as it announces are all there. *)
Definition readField (buf : list byte) : option (list byte * list byte) :=
  match getUint16 buf with
  | Some (n, rest) =>
      if decide (n ≤ length rest) then Some (take n rest, drop n rest) else None
  | None => None
  end.

(** The first [n] fields of a buffer, when all of them are there. *)
Fixpoint readFields (n : nat) (buf : list byte) : option (list (list byte)) :=
  match n with
  | 0 => Some []
  | S n =>
      match readField buf with
      | Some (field, rest) => (field ::.) <$> readFields n rest
      | None => None
      end
  end.

(** Modelled from the spec: [entryReadWriter.Read].  The callback [to]
    receives the next field and updates the caller's state [s] (in Go a
    closure over the entry).  "Decode must reject truncated input ...
    fails per-field on truncation ... or when any field cannot be fully
    read": a missing or cut count, or fewer bytes than the count
    announces, latches [ErrInvalidStructure]; after an error every further
    read is skipped. *)
Definition Read {S : Type} (r : entryReadWriter)
    (to : list byte → S → S) (s : S) : entryReadWriter * S :=
  match err r with
  | Some _ => (r, s)
  | None =>
      match readField (data r) with
      | Some (field, rest) => ({| err := None; data := rest |}, to field s)
      | None => ({| err := Some ErrInvalidStructure; data := data r |}, s)
      end
  end.

(** Modelled from the spec: [entryReadWriter.Bytes], the bytes written
    unless a write failed. *)
Definition Bytes (w : entryReadWriter) : result (list byte) :=
  match err w with
  | Some e => Err e
  | None => Ok (data w)
  end.

(** Modelled from the spec: [entryReadWriter.Err], the latched error. *)
Definition Err (r : entryReadWriter) : option error := err r.

End entryRW.

(** ** The codec, lines 146-167 *)

(** [handlerEntry.MarshalBinary]. *)
Definition MarshalBinary (entry : handlerEntry) : result (list byte) :=
  let w := entryRW.newEntryReadWriter [] in
  let w := entryRW.Write w (AppEUI entry) in
  let w := entryRW.Write w (AppSKey entry) in
  let w := entryRW.Write w (DevAddr entry) in
  let w := entryRW.Write w (NwkSKey entry) in
  entryRW.Bytes w.

Definition set_AppEUI (v : lorawan.EUI64) (entry : handlerEntry) : handlerEntry :=
  {| AppEUI := v; AppSKey := AppSKey entry; DevAddr := DevAddr entry;
     NwkSKey := NwkSKey entry |}.
Definition set_AppSKey (v : lorawan.AES128Key) (entry : handlerEntry) : handlerEntry :=
  {| AppEUI := AppEUI entry; AppSKey := v; DevAddr := DevAddr entry;
     NwkSKey := NwkSKey entry |}.
Definition set_DevAddr (v : lorawan.DevAddr) (entry : handlerEntry) : handlerEntry :=
  {| AppEUI := AppEUI entry; AppSKey := AppSKey entry; DevAddr := v;
     NwkSKey := NwkSKey entry |}.
Definition set_NwkSKey (v : lorawan.AES128Key) (entry : handlerEntry) : handlerEntry :=
  {| AppEUI := AppEUI entry; AppSKey := AppSKey entry; DevAddr := DevAddr entry;
     NwkSKey := v |}.

(** [handlerEntry.UnmarshalBinary], a method of the pointer type: [None] is
    the nil receiver, and the entry it points to is updated in place, so the
    entry after the call is returned next to the error ([None]: no error). *)
Definition UnmarshalBinary (entry : option handlerEntry) (data : list byte)
    : option handlerEntry * option error :=
  match entry with
  | None => (None, Some ErrInvalidStructure)
  | Some entry =>
      if decide (length data < 4)
      then (Some entry, Some ErrInvalidStructure)
      else
        let r := entryRW.newEntryReadWriter data in
        let '(r, entry) :=
          entryRW.Read r (λ data entry, set_AppEUI (copy (AppEUI entry) data) entry) entry in
        let '(r, entry) :=
          entryRW.Read r (λ data entry, set_AppSKey (copy (AppSKey entry) data) entry) entry in
        let '(r, entry) :=
          entryRW.Read r (λ data entry, set_DevAddr (copy (DevAddr entry) data) entry) entry in
        let '(r, entry) :=
          entryRW.Read r (λ data entry, set_NwkSKey (copy (NwkSKey entry) data) entry) entry in
        (Some entry, entryRW.Err r)
  end.

(** The fields at the head of a buffer that can be read in full, [n] at
    most: what the successive calls of [Read] hand to their callbacks
    before the first of them fails. *)
Fixpoint readUpTo (n : nat) (buf : list byte) : list (list byte) :=
  match n with
  | 0 => []
  | S n =>
      match entryRW.readField buf with
      | Some (field, rest) => field :: readUpTo n rest
      | None => []
      end
  end.

(** The fields [UnmarshalBinary] reads from an input: none when the guard of
    line 158 refuses it. *)
Definition fieldsRead (data : list byte) : list (list byte) :=
  if decide (length data < 4) then [] else readUpTo 4 data.

(** The receiver once the callbacks of lines 162-165 have run on the given
    fields, in the order of the calls. *)
Definition storeFields (entry : handlerEntry) (fields : list (list byte))
    : handlerEntry :=
  let entry :=
    match fields !! 0 with
    | Some data => set_AppEUI (copy (AppEUI entry) data) entry
    | None => entry
    end in
  let entry :=
    match fields !! 1 with
    | Some data => set_AppSKey (copy (AppSKey entry) data) entry
    | None => entry
    end in
  let entry :=
    match fields !! 2 with
    | Some data => set_DevAddr (copy (DevAddr entry) data) entry
    | None => entry
    end in
  match fields !! 3 with
  | Some data => set_NwkSKey (copy (NwkSKey entry) data) entry
  | None => entry
  end.

(** ** The key-value engine *)

Module bolt.

(** Modelled from the spec: the embedded engine, "a transactional
    byte-mapping store supporting bucket-scoped get/put/delete".  A bucket
    maps a key to the collection of raw blobs kept under it.  [opened]
    is the handle: once released "no further operations are valid", and
    they fail with [ErrStorageFailure]. *)
Record DB : Type := mkDB {
  opened : bool;
  buckets : gmap string (gmap (list byte) (list (list byte)))
}.

(** Modelled from the spec: what [Open] finds at a path.  The storage is
    persistent and the "source opens a fixed on-disk file path at
    construction": at that path there is no file yet, or a database with
    the [content] an earlier run left there, or a file that another
    process holds ("single-process exclusive access"), or one that cannot
    be used as a database. *)
Inductive File : Type :=
  | NoFile
  | Database (content : gmap string (gmap (list byte) (list (list byte))))
  | Locked
  | Unusable.

Definition FileSystem : Type := string → File.

(** [bolt.Options]: [Timeout], in nanoseconds, is how long [Open] waits
    for a file that another process holds. *)
Record Options : Type := mkOptions { Timeout : N }.

(** Modelled from the spec: "bounded-wait open with a configurable
    timeout".  A missing file is created empty, with the given [mode]; a
    database is opened with the content it has; a file still held when the
    wait ends, and a file that is no database, make the call fail, which is
    the "StorageFailure" of the spec: "any propagated failure from the
    underlying key-value engine (open, read, write, delete)". *)
Definition Open (fs : FileSystem) (path : string) (mode : N) (options : Options)
    : result DB :=
  match fs path with
  | NoFile => Ok {| opened := true; buckets := ∅ |}
  | Database content => Ok {| opened := true; buckets := content |}
  | Locked => Err ErrStorageFailure
  | Unusable => Err ErrStorageFailure
  end.

(** Modelled from the spec: "[Get(bucket, key)]: list of raw value blobs,
    or empty". *)
Definition Get (db : DB) (bucket : string) (key : list byte)
    : result (list (list byte)) :=
  if opened db
  then Ok (default [] (buckets db !! bucket ≫= (.!! key)))
  else Err ErrStorageFailure.

(** Modelled from the spec: "[Put(bucket, key, blob)]", overwrite by key;
    the bucket is created on first use. *)
Definition Put (db : DB) (bucket : string) (key : list byte)
    (blobs : list (list byte)) : result DB :=
  if opened db
  then Ok {| opened := true;
             buckets := <[bucket := <[key := blobs]> (default ∅ (buckets db !! bucket))]>
                          (buckets db) |}
  else Err ErrStorageFailure.

(** Modelled from the spec: "[DeleteAll(bucket)]". *)
Definition DeleteAll (db : DB) (bucket : string) : result DB :=
  if opened db
  then Ok {| opened := true; buckets := <[bucket := ∅]> (buckets db) |}
  else Err ErrStorageFailure.

(** Modelled from the spec: "releases the underlying storage handle". *)
Definition Close (db : DB) : DB := {| opened := false; buckets := buckets db |}.

End bolt.

(** ** The registry *)

(** Modelled from the spec: one stored blob read back as an entry, a fresh
    [handlerEntry{}] filled by [UnmarshalBinary]; "any entry that fails to
    decode during Lookup is surfaced as InvalidStructure". *)
Definition decodeEntry (blob : list byte) : result handlerEntry :=
  match UnmarshalBinary (Some zeroEntry) blob with
  | (Some entry, None) => Ok entry
  | _ => Err ErrInvalidStructure
  end.

Fixpoint decodeEntries (blobs : list (list byte)) : result (list handlerEntry) :=
  match blobs with
  | [] => Ok []
  | blob :: blobs =>
      entry ←! decodeEntry blob;
      entries ←! decodeEntries blobs;
      Ok (entry :: entries)
  end.

(** Modelled from the spec: the helper [lookup], called and not defined by
    [handler_storage.go]: "returns every entry currently stored under that
    address, in storage-native order (insertion order); returns an empty
    list (not an error) if none exist"; an engine failure is surfaced
    unmodified.  The source passes [&handlerEntry{}] for the type of the
    entries to decode. *)
Definition lookup (db : bolt.DB) (bucketName : string) (devAddr : lorawan.DevAddr)
    : result (list handlerEntry) :=
  blobs ←! bolt.Get db bucketName devAddr;
  decodeEntries blobs.

(** Modelled from the spec: the helper [store]: "appends a new Session Entry
    under the given address without removing or overwriting existing entries
    for that address"; the registry merges the new blob into the collection
    it read and writes the collection back. *)
Definition store (db : bolt.DB) (bucketName : string) (devAddr : lorawan.DevAddr)
    (entry : handlerEntry) : result bolt.DB :=
  blob ←! MarshalBinary entry;
  blobs ←! bolt.Get db bucketName devAddr;
  bolt.Put db bucketName devAddr (blobs ++ [blob]).

(** Modelled from the spec: the helper [resetDB]: "deletes all stored
    entries". *)
Definition resetDB (db : bolt.DB) (bucketName : string) : result bolt.DB :=
  bolt.DeleteAll db bucketName.

(** Modelled from the spec: the helper [initDB]: "named bucket creation on
    first use". *)
Definition initDB (db : bolt.DB) (bucketName : string) : result bolt.DB :=
  if bolt.opened db
  then Ok {| bolt.opened := true;
             bolt.buckets := <[bucketName := default ∅ (bolt.buckets db !! bucketName)]>
                               (bolt.buckets db) |}
  else Err ErrStorageFailure.

Record handlerBoltStorage : Type := mkStorage { DB : bolt.DB }.

(** [time.Second], in nanoseconds. *)
Definition Second : N := 1000000000.

(** [NewHandlerStorage], lines 58-69, on the files [fs] of the working
    directory: the error of [bolt.Open] is returned as it is, then that of
    [initDB]; [0600] is octal. *)
Definition NewHandlerStorage (fs : bolt.FileSystem) : result handlerBoltStorage :=
  db ←! bolt.Open fs "handler_storage.db" 384 {| bolt.Timeout := Second |};
  db ←! initDB db "applications";
  Ok {| DB := db |}.

(** [handlerBoltStorage.Lookup], lines 72-78. *)
Definition Lookup (s : handlerBoltStorage) (devAddr : lorawan.DevAddr)
    : result (list handlerEntry) :=
  lookup (DB s) "applications" devAddr.

(** [handlerBoltStorage.Store], lines 81-83; the storage after the call is
    returned on success. *)
Definition Store (s : handlerBoltStorage) (devAddr : lorawan.DevAddr)
    (entry : handlerEntry) : result handlerBoltStorage :=
  db ←! store (DB s) "applications" devAddr entry;
  Ok {| DB := db |}.

(** [handlerBoltStorage.Reset], lines 142-144. *)
Definition Reset (s : handlerBoltStorage) : result handlerBoltStorage :=
  db ←! resetDB (DB s) "applications";
  Ok {| DB := db |}.

(** [handlerBoltStorage.Close], lines 137-139. *)
Definition Close (s : handlerBoltStorage) : handlerBoltStorage :=
  {| DB := bolt.Close (DB s) |}.

(** The raw blobs kept under an address. *)
Definition blobsAt (s : handlerBoltStorage) (devAddr : lorawan.DevAddr)
    : list (list byte) :=
  default [] (bolt.buckets (DB s) !! "applications" ≫= (.!! devAddr)).

(** The storages a program can hold when the file is the registry's own:
    one opened where no file was, or on the database an earlier storage
    left behind, then any sequence of [Store], [Reset] and [Close]. *)
Inductive reachable : handlerBoltStorage → Prop :=
  | reachable_new fs s :
      fs "handler_storage.db" = bolt.NoFile →
      NewHandlerStorage fs = Ok s → reachable s
  | reachable_reopen s0 fs s :
      reachable s0 →
      fs "handler_storage.db" = bolt.Database (bolt.buckets (DB s0)) →
      NewHandlerStorage fs = Ok s → reachable s
  | reachable_Store s devAddr entry s' :
      reachable s → wf_handlerEntry entry → Store s devAddr entry = Ok s' →
      reachable s'
  | reachable_Reset s s' :
      reachable s → Reset s = Ok s' → reachable s'
  | reachable_Close s :
      reachable s → reachable (Close s).

(** ** Packets *)

Module core.

(** What [Partition] asks of a [core.Packet]: [packet.DevAddr()] and
    [packet.Payload.ValidateMIC(key)], each a value or an error. *)
Class PacketOps (Packet : Type) : Type := {
  DevAddr : Packet → result lorawan.DevAddr;
  ValidateMIC : Packet → lorawan.AES128Key → result bool
}.

End core.

(** The same packets with every error of [ValidateMIC] turned into a plain
    [false]. *)
Definition quietMIC {Packet : Type} (ops : core.PacketOps Packet)
    : core.PacketOps Packet :=
  {| core.DevAddr := core.DevAddr;
     core.ValidateMIC packet key :=
       match core.ValidateMIC packet key with
       | Ok ok => Ok ok
       | Err _ => Ok false
       end |}.

(** ** Partitions *)

Record handlerPartition (Packet : Type) : Type := mkPartition {
  partitionEntry : handlerEntry;
  Id : partitionId;
  Packets : list Packet
}.
Arguments mkPartition {Packet} _ _ _.
Arguments partitionEntry {Packet} _.
Arguments Id {Packet} _.
Arguments Packets {Packet} _.

(** Lines 111-113: a zeroed 12-byte id, its first 8 bytes copied from the
    entry's [AppEUI], its last 4 from the entry's [DevAddr]. *)
Definition newPartitionId (entry : handlerEntry) : partitionId :=
  let id := replicate 12 x00 in
  let id := copy (take 8 id) (AppEUI entry) ++ drop 8 id in
  let id := take 8 id ++ copy (drop 8 id) (DevAddr entry) in
  id.

Section Partition.

Context {Packet : Type} {ops : core.PacketOps Packet}.

(** [s.Lookup], all that [Partition] uses of its receiver (line 97). *)
Variable Lookup : lorawan.DevAddr → result (list handlerEntry).

(** The order in which [range] visits the map of partitions (line 125);
    Go leaves it open. *)
Variable rangeOrder :
  list (partitionId * handlerPartition Packet) →
  list (partitionId * handlerPartition Packet).

(** The integrity check of [packet] succeeds under the key of [entry]. *)
Definition validates (packet : Packet) (entry : handlerEntry) : Prop :=
  core.ValidateMIC packet (NwkSKey entry) = Ok true.

(** The loop over the candidates, lines 103-120: the entry it breaks on, if
    any.  The second component records the candidates whose check was
    run, in the order of the calls; [Partition] does not read it. *)
Fixpoint chooseEntry (packet : Packet) (entries : list handlerEntry)
    : option handlerEntry * list handlerEntry :=
  match entries with
  | [] => (None, [])
  | entry :: entries =>
      match core.ValidateMIC packet (NwkSKey entry) with
      | Ok true => (Some entry, [entry])
      | Ok false | Err _ =>
          let '(found, examined) := chooseEntry packet entries in
          (found, entry :: examined)
      end
  end.

(** Lines 110-118: the packet joins the partition of the entry's id. *)
Definition assign (partitions : gmap partitionId (handlerPartition Packet))
    (packet : Packet) (entry : handlerEntry)
    : gmap partitionId (handlerPartition Packet) :=
  let id := newPartitionId entry in
  <[id := {| partitionEntry := entry;
             Id := id;
             Packets := default [] (Packets <$> partitions !! id) ++ [packet] |}]>
    partitions.

(** The loop over the packets, lines 90-121. *)
Fixpoint partitionPackets (packets : list Packet)
    (partitions : gmap partitionId (handlerPartition Packet))
    : result (gmap partitionId (handlerPartition Packet)) :=
  match packets with
  | [] => Ok partitions
  | packet :: packets =>
      match core.DevAddr packet with
      | Err _ => Err ErrInvalidStructure
      | Ok devAddr =>
          match Lookup devAddr with
          | Err e => Err e
          | Ok entries =>
              match fst (chooseEntry packet entries) with
              | Some entry => partitionPackets packets (assign partitions packet entry)
              | None => partitionPackets packets partitions
              end
          end
      end
  end.

(** [handlerBoltStorage.Partition], lines 86-134. *)
Definition Partition (packets : list Packet) : result (list (handlerPartition Packet)) :=
  partitions ←! partitionPackets packets ∅;
  let res := (rangeOrder (map_to_list partitions)).*2 in
  if decide (length res = 0) then Err ErrNotFound else Ok res.

(** The entry a packet is resolved to when nothing fails on the way. *)
Definition matchOf (packet : Packet) : option handlerEntry :=
  match core.DevAddr packet with
  | Ok devAddr =>
      match Lookup devAddr with
      | Ok entries => fst (chooseEntry packet entries)
      | Err _ => None
      end
  | Err _ => None
  end.

(** The packets of a batch that are resolved to an entry of id [id], in
    the order of the batch. *)
Definition routed (id : partitionId) (packets : list Packet) : list Packet :=
  filter (λ packet, newPartitionId <$> matchOf packet = Some id) packets.

(** Neither the address nor the lookup of [packet] fails. *)
Definition readable (packet : Packet) : Prop :=
  ∃ devAddr entries, core.DevAddr packet = Ok devAddr ∧ Lookup devAddr = Ok entries.

End Partition.

(** The packets a list of partitions holds under an id, and the same for
    the outcome of a call, a failed call holding none. *)
Definition packetsIn {Packet : Type} (res : list (handlerPartition Packet))
    (id : partitionId) : list Packet :=
  res ≫= (λ P, if decide (Id P = id) then Packets P else []).

Definition packetsFor {Packet : Type} (r : result (list (handlerPartition Packet)))
    (id : partitionId) : list Packet :=
  match r with
  | Ok res => packetsIn res id
  | Err _ => []
  end.

(** ** A packet type to run the definitions on *)

(** A packet reduced to what the partitioner sees of it: its address if it
    has one, the keys its integrity check accepts, and the keys under which
    the check itself fails. *)
Record testPacket : Type := mkTestPacket {
  tpName : nat;
  tpAddr : option lorawan.DevAddr;
  tpValid : list lorawan.AES128Key;
  tpBroken : list lorawan.AES128Key
}.

#[global] Instance testPacket_ops : core.PacketOps testPacket :=
  {| core.DevAddr packet :=
       match tpAddr packet with
       | Some devAddr => Ok devAddr
       | None => Err ErrInvalidStructure
       end;
     core.ValidateMIC packet key :=
       if decide (key ∈ tpBroken packet) then Err ErrInvalidStructure
       else Ok (bool_decide (key ∈ tpValid packet)) |}.

(** ** Sample data: two devices colliding on one short address *)

Definition addrA : lorawan.DevAddr := [x26; x01; x02; x03].
Definition addrB : lorawan.DevAddr := [x26; x01; x02; x04].
Definition appX : lorawan.EUI64 := [x70; xb3; xd5; x7e; xd0; x00; x00; x01].
Definition appY : lorawan.EUI64 := [x70; xb3; xd5; x7e; xd0; x00; x00; x02].
Definition keyS : lorawan.AES128Key := replicate 16 x5a.
Definition key1 : lorawan.AES128Key := replicate 16 x11.
Definition key2 : lorawan.AES128Key := replicate 16 x22.

Definition e1 : handlerEntry :=
  {| AppEUI := appX; AppSKey := keyS; DevAddr := addrA; NwkSKey := key1 |}.
Definition e2 : handlerEntry :=
  {| AppEUI := appY; AppSKey := keyS; DevAddr := addrA; NwkSKey := key2 |}.
(** A second session of application X on the same address, under [key2]. *)
Definition e1' : handlerEntry :=
  {| AppEUI := appX; AppSKey := keyS; DevAddr := addrA; NwkSKey := key2 |}.
(** A device of a third application on the same address, which has the
    network session key of [e2]. *)
Definition appZ : lorawan.EUI64 := [x70; xb3; xd5; x7e; xd0; x00; x00; x03].
Definition e3 : handlerEntry :=
  {| AppEUI := appZ; AppSKey := keyS; DevAddr := addrA; NwkSKey := key2 |}.

Definition p1 : testPacket :=
  {| tpName := 1; tpAddr := Some addrA; tpValid := [key1]; tpBroken := [] |}.
Definition p2 : testPacket :=
  {| tpName := 2; tpAddr := Some addrA; tpValid := [key2]; tpBroken := [] |}.
Definition p3 : testPacket :=
  {| tpName := 3; tpAddr := Some addrA; tpValid := []; tpBroken := [] |}.
(** Valid under both keys. *)
Definition p12 : testPacket :=
  {| tpName := 4; tpAddr := Some addrA; tpValid := [key1; key2]; tpBroken := [] |}.
(** The check fails with an error under [key1] and succeeds under [key2]. *)
Definition pErr : testPacket :=
  {| tpName := 5; tpAddr := Some addrA; tpValid := [key2]; tpBroken := [key1] |}.
(** A later packet of the device of [p1]. *)
Definition p4 : testPacket :=
  {| tpName := 7; tpAddr := Some addrA; tpValid := [key1]; tpBroken := [] |}.
(** No readable address. *)
Definition pBad : testPacket :=
  {| tpName := 6; tpAddr := None; tpValid := [key1]; tpBroken := [] |}.

(** A working directory without any file. *)
Definition noFiles : bolt.FileSystem := λ _, bolt.NoFile.

(** The storage after the given [Store] calls on a storage opened where
    no file was. *)
Definition storageOf (stored : list (lorawan.DevAddr * handlerEntry))
    : result handlerBoltStorage :=
  foldl (λ r '(devAddr, entry), s ←! r; Store s devAddr entry)
        (NewHandlerStorage noFiles) stored.

Definition storageOr (r : result handlerBoltStorage) : handlerBoltStorage :=
  match r with
  | Ok s => s
  | Err _ => {| DB := {| bolt.opened := false; bolt.buckets := ∅ |} |}
  end.

(** The storage after the given [Store] calls on [s], the first failure
    ending the run. *)
Definition storeAll (s : handlerBoltStorage)
    (stored : list (lorawan.DevAddr * handlerEntry)) : result handlerBoltStorage :=
  foldl (λ r '(devAddr, entry), s ←! r; Store s devAddr entry) (Ok s) stored.

Definition emptyStorage : handlerBoltStorage := storageOr (NewHandlerStorage noFiles).
Definition storage1 : handlerBoltStorage :=
  storageOr (storageOf [(addrA, e1)]).
Definition storage12 : handlerBoltStorage :=
  storageOr (storageOf [(addrA, e1); (addrA, e2)]).
Definition storage11' : handlerBoltStorage :=
  storageOr (storageOf [(addrA, e1); (addrA, e1')]).
Definition storage132 : handlerBoltStorage :=
  storageOr (storageOf [(addrA, e1); (addrA, e3); (addrA, e2)]).

Definition partitionX (packets : list testPacket) : handlerPartition testPacket :=
  {| partitionEntry := e1; Id := appX ++ addrA; Packets := packets |}.
Definition partitionY (packets : list testPacket) : handlerPartition testPacket :=
  {| partitionEntry := e2; Id := appY ++ addrA; Packets := packets |}.
Definition partitionZ (packets : list testPacket) : handlerPartition testPacket :=
  {| partitionEntry := e3; Id := appZ ++ addrA; Packets := packets |}.

(** ** The monitor service, [api/monitor/monitor.pb.go] *)

Module monitor.
Section monitor.

(** The streams and the errors of gRPC, which the generated code only hands
    on. *)
Variables ServerStream ClientStream Error : Type.

(** [MonitorServer], lines 449-461: each method is given the stream of one
    call and returns an error or none.  The stream it is given is the
    [grpc.ServerStream] wrapped in a struct that embeds it. *)
Record MonitorServer : Type := mkMonitorServer {
  RouterStatus : ServerStream → option Error;
  GatewayStatus : ServerStream → option Error;
  GatewayUplink : ServerStream → option Error;
  GatewayDownlink : ServerStream → option Error;
  BrokerStatus : ServerStream → option Error;
  BrokerUplink : ServerStream → option Error;
  BrokerDownlink : ServerStream → option Error;
  HandlerStatus : ServerStream → option Error;
  HandlerUplink : ServerStream → option Error;
  HandlerDownlink : ServerStream → option Error;
  NetworkServerStatus : ServerStream → option Error
}.

(** [grpc.StreamDesc]; [ServerStreams] is the field the generated table
    leaves at its zero value. *)
Record StreamDesc : Type := mkStreamDesc {
  StreamName : string;
  Handler : MonitorServer → ServerStream → option Error;
  ClientStreams : bool;
  ServerStreams : bool
}.

(** [grpc.ServiceDesc], without [HandlerType]. *)
Record ServiceDesc : Type := mkServiceDesc {
  ServiceName : string;
  Methods : list string;
  Streams : list StreamDesc;
  Metadata : string
}.

(** The handlers, lines 467-729: [srv.(MonitorServer).M(&monitorMServer{stream})]. *)
Definition _Monitor_RouterStatus_Handler (srv : MonitorServer)
    (stream : ServerStream) : option Error :=
  RouterStatus srv stream.
Definition _Monitor_GatewayStatus_Handler (srv : MonitorServer)
    (stream : ServerStream) : option Error :=
  GatewayStatus srv stream.
Definition _Monitor_GatewayUplink_Handler (srv : MonitorServer)
    (stream : ServerStream) : option Error :=
  GatewayUplink srv stream.
Definition _Monitor_GatewayDownlink_Handler (srv : MonitorServer)
    (stream : ServerStream) : option Error :=
  GatewayDownlink srv stream.
Definition _Monitor_BrokerStatus_Handler (srv : MonitorServer)
    (stream : ServerStream) : option Error :=
  BrokerStatus srv stream.
Definition _Monitor_BrokerUplink_Handler (srv : MonitorServer)
    (stream : ServerStream) : option Error :=
  BrokerUplink srv stream.
Definition _Monitor_BrokerDownlink_Handler (srv : MonitorServer)
    (stream : ServerStream) : option Error :=
  BrokerDownlink srv stream.
Definition _Monitor_HandlerStatus_Handler (srv : MonitorServer)
    (stream : ServerStream) : option Error :=
  HandlerStatus srv stream.
Definition _Monitor_HandlerUplink_Handler (srv : MonitorServer)
    (stream : ServerStream) : option Error :=
  HandlerUplink srv stream.
Definition _Monitor_HandlerDownlink_Handler (srv : MonitorServer)
    (stream : ServerStream) : option Error :=
  HandlerDownlink srv stream.
Definition _Monitor_NetworkServerStatus_Handler (srv : MonitorServer)
    (stream : ServerStream) : option Error :=
  NetworkServerStatus srv stream.

(** [_Monitor_serviceDesc], lines 753-814. *)
Definition _Monitor_serviceDesc : ServiceDesc :=
  {| ServiceName := "monitor.Monitor";
     Methods := [];
     Streams :=
       [{| StreamName := "RouterStatus"; Handler := _Monitor_RouterStatus_Handler;
           ClientStreams := true; ServerStreams := false |};
        {| StreamName := "GatewayStatus"; Handler := _Monitor_GatewayStatus_Handler;
           ClientStreams := true; ServerStreams := false |};
        {| StreamName := "GatewayUplink"; Handler := _Monitor_GatewayUplink_Handler;
           ClientStreams := true; ServerStreams := false |};
        {| StreamName := "GatewayDownlink"; Handler := _Monitor_GatewayDownlink_Handler;
           ClientStreams := true; ServerStreams := false |};
        {| StreamName := "BrokerStatus"; Handler := _Monitor_BrokerStatus_Handler;
           ClientStreams := true; ServerStreams := false |};
        {| StreamName := "BrokerUplink"; Handler := _Monitor_BrokerUplink_Handler;
           ClientStreams := true; ServerStreams := false |};
        {| StreamName := "BrokerDownlink"; Handler := _Monitor_BrokerDownlink_Handler;
           ClientStreams := true; ServerStreams := false |};
        {| StreamName := "HandlerStatus"; Handler := _Monitor_HandlerStatus_Handler;
           ClientStreams := true; ServerStreams := false |};
        {| StreamName := "HandlerUplink"; Handler := _Monitor_HandlerUplink_Handler;
           ClientStreams := true; ServerStreams := false |};
        {| StreamName := "HandlerDownlink"; Handler := _Monitor_HandlerDownlink_Handler;
           ClientStreams := true; ServerStreams := false |};
        {| StreamName := "NetworkServerStatus"; Handler := _Monitor_NetworkServerStatus_Handler;
           ClientStreams := true; ServerStreams := false |}];
     Metadata := "github.com/TheThingsNetwork/ttn/api/monitor/monitor.proto" |}.

(** [grpc.NewClientStream] with the context, the connection and the options
    of the call: it is given a stream descriptor and a method path. *)
Variable NewClientStream : StreamDesc → string → Error + ClientStream.

(** The methods of [monitorClient], lines 73-420.  [Streams[i]] panics
    when [i] is out of range: [None].  An error of [NewClientStream] is
    returned as it is, a stream wrapped in a struct that embeds it. *)
Definition monitorClient_RouterStatus : option (Error + ClientStream) :=
  desc ← Streams _Monitor_serviceDesc !! 0;
  Some (match NewClientStream desc "/monitor.Monitor/RouterStatus" with
        | inl err => inl err
        | inr stream => inr stream
        end).
Definition monitorClient_GatewayStatus : option (Error + ClientStream) :=
  desc ← Streams _Monitor_serviceDesc !! 1;
  Some (match NewClientStream desc "/monitor.Monitor/GatewayStatus" with
        | inl err => inl err
        | inr stream => inr stream
        end).
Definition monitorClient_GatewayUplink : option (Error + ClientStream) :=
  desc ← Streams _Monitor_serviceDesc !! 2;
  Some (match NewClientStream desc "/monitor.Monitor/GatewayUplink" with
        | inl err => inl err
        | inr stream => inr stream
        end).
Definition monitorClient_GatewayDownlink : option (Error + ClientStream) :=
  desc ← Streams _Monitor_serviceDesc !! 3;
  Some (match NewClientStream desc "/monitor.Monitor/GatewayDownlink" with
        | inl err => inl err
        | inr stream => inr stream
        end).
Definition monitorClient_BrokerStatus : option (Error + ClientStream) :=
  desc ← Streams _Monitor_serviceDesc !! 4;
  Some (match NewClientStream desc "/monitor.Monitor/BrokerStatus" with
        | inl err => inl err
        | inr stream => inr stream
        end).
Definition monitorClient_BrokerUplink : option (Error + ClientStream) :=
  desc ← Streams _Monitor_serviceDesc !! 5;
  Some (match NewClientStream desc "/monitor.Monitor/BrokerUplink" with
        | inl err => inl err
        | inr stream => inr stream
        end).
Definition monitorClient_BrokerDownlink : option (Error + ClientStream) :=
  desc ← Streams _Monitor_serviceDesc !! 6;
  Some (match NewClientStream desc "/monitor.Monitor/BrokerDownlink" with
        | inl err => inl err
        | inr stream => inr stream
        end).
Definition monitorClient_HandlerStatus : option (Error + ClientStream) :=
  desc ← Streams _Monitor_serviceDesc !! 7;
  Some (match NewClientStream desc "/monitor.Monitor/HandlerStatus" with
        | inl err => inl err
        | inr stream => inr stream
        end).
Definition monitorClient_HandlerUplink : option (Error + ClientStream) :=
  desc ← Streams _Monitor_serviceDesc !! 8;
  Some (match NewClientStream desc "/monitor.Monitor/HandlerUplink" with
        | inl err => inl err
        | inr stream => inr stream
        end).
Definition monitorClient_HandlerDownlink : option (Error + ClientStream) :=
  desc ← Streams _Monitor_serviceDesc !! 9;
  Some (match NewClientStream desc "/monitor.Monitor/HandlerDownlink" with
        | inl err => inl err
        | inr stream => inr stream
        end).
Definition monitorClient_NetworkServerStatus : option (Error + ClientStream) :=
  desc ← Streams _Monitor_serviceDesc !! 10;
  Some (match NewClientStream desc "/monitor.Monitor/NetworkServerStatus" with
        | inl err => inl err
        | inr stream => inr stream
        end).

End monitor.

Arguments StreamName {_ _} _.
Arguments Handler {_ _} _ _ _.
Arguments ClientStreams {_ _} _.
Arguments ServerStreams {_ _} _.
Arguments ServiceName {_ _} _.
Arguments Methods {_ _} _.
Arguments Streams {_ _} _.
Arguments Metadata {_ _} _.

(** The methods of the interface [MonitorClient], lines 51-63, by name. *)
Definition clientMethods (ServerStream ClientStream Error : Type)
    : list (string *
            ((StreamDesc ServerStream Error → string → Error + ClientStream) →
             option (Error + ClientStream))) :=
  [("RouterStatus", monitorClient_RouterStatus ServerStream ClientStream Error);
   ("GatewayStatus", monitorClient_GatewayStatus ServerStream ClientStream Error);
   ("GatewayUplink", monitorClient_GatewayUplink ServerStream ClientStream Error);
   ("GatewayDownlink", monitorClient_GatewayDownlink ServerStream ClientStream Error);
   ("BrokerStatus", monitorClient_BrokerStatus ServerStream ClientStream Error);
   ("BrokerUplink", monitorClient_BrokerUplink ServerStream ClientStream Error);
   ("BrokerDownlink", monitorClient_BrokerDownlink ServerStream ClientStream Error);
   ("HandlerStatus", monitorClient_HandlerStatus ServerStream ClientStream Error);
   ("HandlerUplink", monitorClient_HandlerUplink ServerStream ClientStream Error);
   ("HandlerDownlink", monitorClient_HandlerDownlink ServerStream ClientStream Error);
   ("NetworkServerStatus", monitorClient_NetworkServerStatus ServerStream ClientStream Error)].

(** The methods of the interface [MonitorServer], lines 449-461, by name. *)
Definition serverMethods (ServerStream Error : Type)
    : list (string * (MonitorServer ServerStream Error → ServerStream → option Error)) :=
  [("RouterStatus", @RouterStatus ServerStream Error);
   ("GatewayStatus", @GatewayStatus ServerStream Error);
   ("GatewayUplink", @GatewayUplink ServerStream Error);
   ("GatewayDownlink", @GatewayDownlink ServerStream Error);
   ("BrokerStatus", @BrokerStatus ServerStream Error);
   ("BrokerUplink", @BrokerUplink ServerStream Error);
   ("BrokerDownlink", @BrokerDownlink ServerStream Error);
   ("HandlerStatus", @HandlerStatus ServerStream Error);
   ("HandlerUplink", @HandlerUplink ServerStream Error);
   ("HandlerDownlink", @HandlerDownlink ServerStream Error);
   ("NetworkServerStatus", @NetworkServerStatus ServerStream Error)].

End monitor.

(** * Results *)

(** ** Bytes and copies *)

Lemma byteOfN_to_N (n : N) : (n < 256)%N → Byte.to_N (entryRW.byteOfN n) = n.
Proof.
  intros Hn. unfold entryRW.byteOfN.
  destruct (Byte.of_N n) as [b|] eqn:Hb; simpl.
  - by apply Byte.to_of_N.
  - apply Byte.of_N_None_iff in Hb. lia.
Qed.

Lemma byteOfN_of_to (b : byte) : entryRW.byteOfN (Byte.to_N b) = b.
Proof. unfold entryRW.byteOfN. by rewrite Byte.of_to_N. Qed.

Lemma to_N_lt (b : byte) : (Byte.to_N b < 256)%N.
Proof. pose proof (Byte.to_N_bounded b). lia. Qed.

Lemma getUint16_putUint16 (n : nat) (rest : list byte) :
  (N.of_nat n < 65536)%N →
  entryRW.getUint16 (entryRW.putUint16 n ++ rest) = Some (n, rest).
Proof.
  intros Hn. unfold entryRW.putUint16, entryRW.getUint16. simpl.
  rewrite !byteOfN_to_N by (apply N.mod_lt; lia).
  do 2 f_equal.
  rewrite (N.mod_small (N.of_nat n / 256) 256)
    by (apply N.Div0.div_lt_upper_bound; lia).
  rewrite N.mul_comm, <- N.div_mod by lia. apply Nat2N.id.
Qed.

Lemma getUint16_inv (buf rest : list byte) (n : nat) :
  entryRW.getUint16 buf = Some (n, rest) →
  buf = entryRW.putUint16 n ++ rest ∧ (N.of_nat n < 65536)%N.
Proof.
  destruct buf as [|hi [|lo buf]]; simpl; try done.
  intros [= <- <-].
  pose proof (to_N_lt hi). pose proof (to_N_lt lo).
  rewrite N2Nat.id. split; [|lia].
  unfold entryRW.putUint16. simpl.
  rewrite N.div_add_l, N.div_small, N.add_0_r by lia.
  rewrite (N.mod_small (Byte.to_N hi)) by lia.
  rewrite N.add_comm, N.Div0.mod_add, N.mod_small by lia.
  by rewrite !byteOfN_of_to.
Qed.

Lemma copy_same_length (dst src : list byte) :
  length dst = length src → copy dst src = src.
Proof.
  intros Hlen. unfold copy.
  rewrite Hlen, firstn_all, drop_ge by lia. apply app_nil_r.
Qed.

Lemma newPartitionId_wf (entry : handlerEntry) :
  wf_handlerEntry entry → newPartitionId entry = AppEUI entry ++ DevAddr entry.
Proof.
  intros (L1 & _ & L3 & _). unfold newPartitionId.
  rewrite (copy_same_length _ (AppEUI entry)) by (by rewrite L1).
  rewrite take_app_length', drop_app_length' by done.
  by rewrite copy_same_length by (by rewrite L3).
Qed.

(** ** The read-writer *)

Lemma readField_framed (raw rest : list byte) :
  (N.of_nat (length raw) < 65536)%N →
  entryRW.readField (entryRW.framed raw ++ rest) = Some (raw, rest).
Proof.
  intros Hlen. unfold entryRW.readField, entryRW.framed.
  rewrite <- app_assoc, getUint16_putUint16 by done.
  rewrite decide_True by (rewrite length_app; lia).
  by rewrite take_app_length, drop_app_length.
Qed.

Lemma readField_inv (buf field rest : list byte) :
  entryRW.readField buf = Some (field, rest) →
  buf = entryRW.framed field ++ rest ∧ (N.of_nat (length field) < 65536)%N.
Proof.
  unfold entryRW.readField, entryRW.framed.
  destruct (entryRW.getUint16 buf) as [[n tl]|] eqn:Hget; [|done].
  apply getUint16_inv in Hget as [-> Hn].
  case_decide as Hle; [|done]. intros [= <- <-].
  rewrite length_take, Nat.min_l by done.
  by rewrite <- app_assoc, take_drop.
Qed.

Lemma readField_short (buf : list byte) :
  length buf < 2 → entryRW.readField buf = None.
Proof.
  unfold entryRW.readField. destruct buf as [|? [|? ?]]; simpl; [done..|lia].
Qed.

(** When a field cannot be read in full: the two bytes of the count are not
    both there, or fewer bytes follow than the count announces. *)
Lemma readField_None (buf : list byte) :
  entryRW.readField buf = None ↔
  length buf < 2 ∨
  ∃ hi lo rest, buf = hi :: lo :: rest ∧
                length rest < N.to_nat (Byte.to_N hi * 256 + Byte.to_N lo).
Proof.
  unfold entryRW.readField. destruct buf as [|hi [|lo rest]]; simpl.
  - split; [intros _; left; lia | done].
  - split; [intros _; left; lia | done].
  - case_decide as Hle; split; try done.
    + intros [?|(hi' & lo' & rest' & [= <- <- <-] & ?)]; lia.
    + intros _. right. exists hi, lo, rest. split; [done | lia].
Qed.

Lemma readField_length (buf field rest : list byte) :
  entryRW.readField buf = Some (field, rest) → 2 + length rest ≤ length buf.
Proof.
  intros [-> _]%readField_inv. unfold entryRW.framed, entryRW.putUint16.
  rewrite !length_app. simpl. lia.
Qed.

Lemma readFields_short (n : nat) (buf : list byte) :
  length buf < 2 * n → entryRW.readFields n buf = None.
Proof.
  revert buf. induction n as [|n IH]; intros buf Hlen; simpl; [lia|].
  destruct (entryRW.readField buf) as [[field rest]|] eqn:Hread; [|done].
  apply readField_length in Hread. rewrite IH; [done|lia].
Qed.

Section Read.
Context {S : Type} (to : list byte → S → S).

Lemma Read_field (buf field rest : list byte) (s : S) :
  entryRW.readField buf = Some (field, rest) →
  entryRW.Read (entryRW.mkRW None buf) to s = (entryRW.mkRW None rest, to field s).
Proof. intros Hread. unfold entryRW.Read. simpl. by rewrite Hread. Qed.

Lemma Read_truncated (buf : list byte) (s : S) :
  entryRW.readField buf = None →
  entryRW.Read (entryRW.mkRW None buf) to s =
    (entryRW.mkRW (Some ErrInvalidStructure) buf, s).
Proof. intros Hread. unfold entryRW.Read. simpl. by rewrite Hread. Qed.

Lemma Read_latched (e : error) (buf : list byte) (s : S) :
  entryRW.Read (entryRW.mkRW (Some e) buf) to s = (entryRW.mkRW (Some e) buf, s).
Proof. done. Qed.
End Read.

(** ** The codec *)

Lemma MarshalBinary_framed (entry : handlerEntry) :
  (N.of_nat (length (AppEUI entry)) < 65536)%N →
  (N.of_nat (length (AppSKey entry)) < 65536)%N →
  (N.of_nat (length (DevAddr entry)) < 65536)%N →
  (N.of_nat (length (NwkSKey entry)) < 65536)%N →
  MarshalBinary entry =
    Ok (entryRW.framed (AppEUI entry) ++ entryRW.framed (AppSKey entry) ++
        entryRW.framed (DevAddr entry) ++ entryRW.framed (NwkSKey entry)).
Proof.
  intros H1 H2 H3 H4. unfold MarshalBinary, entryRW.Write, entryRW.newEntryReadWriter.
  simpl. rewrite decide_True by done. simpl.
  rewrite decide_True by done. simpl.
  rewrite decide_True by done. simpl.
  rewrite decide_True by done. simpl.
  by rewrite <- !app_assoc.
Qed.

Lemma wf_handlerEntry_small (entry : handlerEntry) :
  wf_handlerEntry entry →
  (N.of_nat (length (AppEUI entry)) < 65536)%N ∧
  (N.of_nat (length (AppSKey entry)) < 65536)%N ∧
  (N.of_nat (length (DevAddr entry)) < 65536)%N ∧
  (N.of_nat (length (NwkSKey entry)) < 65536)%N.
Proof. intros (-> & -> & -> & ->). lia. Qed.

Lemma readFields_framed4 (f1 f2 f3 f4 rest : list byte) :
  (N.of_nat (length f1) < 65536)%N → (N.of_nat (length f2) < 65536)%N →
  (N.of_nat (length f3) < 65536)%N → (N.of_nat (length f4) < 65536)%N →
  entryRW.readFields 4
    (entryRW.framed f1 ++ entryRW.framed f2 ++ entryRW.framed f3 ++
     entryRW.framed f4 ++ rest) = Some [f1; f2; f3; f4].
Proof.
  intros H1 H2 H3 H4. cbn [entryRW.readFields].
  by rewrite !readField_framed by done.
Qed.

(** The entry a successful decoding leaves behind. *)
Lemma UnmarshalBinary_fields (entry : handlerEntry) (data f1 f2 f3 f4 : list byte) :
  entryRW.readFields 4 data = Some [f1; f2; f3; f4] →
  UnmarshalBinary (Some entry) data =
    (Some {| AppEUI := copy (AppEUI entry) f1; AppSKey := copy (AppSKey entry) f2;
             DevAddr := copy (DevAddr entry) f3; NwkSKey := copy (NwkSKey entry) f4 |},
     None).
Proof.
  intros Hfields. unfold UnmarshalBinary.
  case_decide as Hlen.
  { rewrite readFields_short in Hfields by lia. done. }
  simpl in Hfields. unfold entryRW.newEntryReadWriter.
  destruct (entryRW.readField data) as [[g1 r1]|] eqn:E1; [|done].
  destruct (entryRW.readField r1) as [[g2 r2]|] eqn:E2; [|done].
  destruct (entryRW.readField r2) as [[g3 r3]|] eqn:E3; [|done].
  destruct (entryRW.readField r3) as [[g4 r4]|] eqn:E4; [|done].
  simpl in Hfields. injection Hfields as -> -> -> ->.
  rewrite (Read_field _ _ _ _ _ E1). rewrite (Read_field _ _ _ _ _ E2).
  rewrite (Read_field _ _ _ _ _ E3). rewrite (Read_field _ _ _ _ _ E4).
  done.
Qed.

Lemma UnmarshalBinary_truncated (entry : handlerEntry) (data : list byte) :
  entryRW.readFields 4 data = None →
  snd (UnmarshalBinary (Some entry) data) = Some ErrInvalidStructure.
Proof.
  intros Hfields. unfold UnmarshalBinary.
  case_decide as Hlen; [done|].
  simpl in Hfields. unfold entryRW.newEntryReadWriter.
  destruct (entryRW.readField data) as [[g1 r1]|] eqn:E1;
    [rewrite (Read_field _ _ _ _ _ E1) | by rewrite (Read_truncated _ _ _ E1)].
  destruct (entryRW.readField r1) as [[g2 r2]|] eqn:E2;
    [rewrite (Read_field _ _ _ _ _ E2) | by rewrite (Read_truncated _ _ _ E2)].
  destruct (entryRW.readField r2) as [[g3 r3]|] eqn:E3;
    [rewrite (Read_field _ _ _ _ _ E3) | by rewrite (Read_truncated _ _ _ E3)].
  destruct (entryRW.readField r3) as [[g4 r4]|] eqn:E4;
    [done | by rewrite (Read_truncated _ _ _ E4)].
Qed.

Lemma decodeEntry_MarshalBinary (entry : handlerEntry) (blob : list byte) :
  wf_handlerEntry entry → MarshalBinary entry = Ok blob → decodeEntry blob = Ok entry.
Proof.
  intros Hwf Hblob.
  destruct (wf_handlerEntry_small _ Hwf) as (H1 & H2 & H3 & H4).
  rewrite MarshalBinary_framed in Hblob by done. injection Hblob as <-.
  unfold decodeEntry.
  rewrite (UnmarshalBinary_fields _ _ (AppEUI entry) (AppSKey entry)
             (DevAddr entry) (NwkSKey entry)).
  - destruct Hwf as (L1 & L2 & L3 & L4). destruct entry as [a b c d]; simpl in *.
    rewrite !copy_same_length by (cbn; congruence). done.
  - pose proof (readFields_framed4 (AppEUI entry) (AppSKey entry) (DevAddr entry)
                  (NwkSKey entry) [] H1 H2 H3 H4) as Hread.
    by rewrite app_nil_r in Hread.
Qed.

(** C6.  Round trip of the codec: an entry whose four fields have the sizes
    of their array types (8, 16, 4 and 16 bytes) is encoded without error,
    and decoding the encoding, into the zero entry or into any entry a
    caller already holds, gives the entry back with no error. *)
Theorem UnmarshalBinary_MarshalBinary (entry : handlerEntry) :
  wf_handlerEntry entry →
  ∃ blob,
    MarshalBinary entry = Ok blob ∧
    UnmarshalBinary (Some zeroEntry) blob = (Some entry, None) ∧
    ∀ receiver, wf_handlerEntry receiver →
                UnmarshalBinary (Some receiver) blob = (Some entry, None).
Proof.
  intros Hwf.
  destruct (wf_handlerEntry_small _ Hwf) as (H1 & H2 & H3 & H4).
  eexists. split; [by apply MarshalBinary_framed|].
  assert (∀ receiver, wf_handlerEntry receiver →
            UnmarshalBinary (Some receiver)
              (entryRW.framed (AppEUI entry) ++ entryRW.framed (AppSKey entry) ++
               entryRW.framed (DevAddr entry) ++ entryRW.framed (NwkSKey entry))
            = (Some entry, None)) as Hdec.
  { intros receiver (R1 & R2 & R3 & R4).
    rewrite (UnmarshalBinary_fields _ _ (AppEUI entry) (AppSKey entry)
               (DevAddr entry) (NwkSKey entry)).
    - destruct Hwf as (L1 & L2 & L3 & L4). destruct entry as [a b c d]; simpl in *.
      rewrite !copy_same_length by congruence. done.
    - pose proof (readFields_framed4 (AppEUI entry) (AppSKey entry) (DevAddr entry)
                    (NwkSKey entry) [] H1 H2 H3 H4) as Hread.
      by rewrite app_nil_r in Hread. }
  split; [|done]. apply Hdec. by vm_compute.
Qed.

Lemma UnmarshalBinary_MarshalBinary_witness :
  wf_handlerEntry e1 ∧
  ∃ blob,
    MarshalBinary e1 = Ok blob ∧
    UnmarshalBinary (Some zeroEntry) blob = (Some e1, None) ∧
    ∀ receiver, wf_handlerEntry receiver →
                UnmarshalBinary (Some receiver) blob = (Some e1, None).
Proof.
  assert (wf_handlerEntry e1) as Hwf by (by vm_compute).
  split; [exact Hwf | exact (UnmarshalBinary_MarshalBinary e1 Hwf)].
Defined.

(** C7.  Decoding fails with [ErrInvalidStructure] on every input shorter
    than four bytes, whatever the receiver (the guard of line 158 comes
    before any read), and on every input from which the four fields cannot
    all be read in full. *)
Theorem UnmarshalBinary_rejects (entry : option handlerEntry) (data : list byte) :
  length data < 4 ∨ entryRW.readFields 4 data = None →
  snd (UnmarshalBinary entry data) = Some ErrInvalidStructure.
Proof.
  intros Hbad. destruct entry as [entry|]; [|done].
  destruct Hbad as [Hlen|Hfields].
  - unfold UnmarshalBinary. by rewrite decide_True.
  - by apply UnmarshalBinary_truncated.
Qed.

(** A three-byte input, and the encoding of [e1] with its last byte cut. *)
Lemma UnmarshalBinary_rejects_witness :
  snd (UnmarshalBinary (Some zeroEntry) [x00; x08; x70]) = Some ErrInvalidStructure ∧
  snd (UnmarshalBinary (Some zeroEntry)
         (take 51 (entryRW.framed appX ++ entryRW.framed keyS ++
                   entryRW.framed addrA ++ entryRW.framed key1)))
    = Some ErrInvalidStructure.
Proof.
  split.
  - apply (UnmarshalBinary_rejects (Some zeroEntry) [x00; x08; x70]).
    left. simpl. lia.
  - apply (UnmarshalBinary_rejects (Some zeroEntry)
             (take 51 (entryRW.framed appX ++ entryRW.framed keyS ++
                       entryRW.framed addrA ++ entryRW.framed key1))).
    right. vm_compute. reflexivity.
Defined.

(** Where rejection stops: the callbacks of lines 162-165 copy whatever
    length was read, so four complete fields are accepted even when they
    are shorter than the arrays, here four empty ones. *)
Lemma UnmarshalBinary_short_fields :
  UnmarshalBinary (Some e1) (replicate 8 x00) = (Some e1, None).
Proof. by vm_compute. Qed.

(** ** The registry *)

Lemma decodeEntries_app (l1 l2 : list (list byte)) (es1 es2 : list handlerEntry) :
  decodeEntries l1 = Ok es1 → decodeEntries l2 = Ok es2 →
  decodeEntries (l1 ++ l2) = Ok (es1 ++ es2).
Proof.
  revert es1. induction l1 as [|blob l1 IH]; intros es1; simpl.
  - by intros [= <-].
  - destruct (decodeEntry blob) as [entry|]; simpl; [|done].
    destruct (decodeEntries l1) as [es|]; simpl; [|done].
    intros [= <-] H2. by rewrite (IH es).
Qed.

Lemma Lookup_blobsAt (s : handlerBoltStorage) (devAddr : lorawan.DevAddr) :
  Lookup s devAddr =
    if bolt.opened (DB s) then decodeEntries (blobsAt s devAddr)
    else Err ErrStorageFailure.
Proof.
  unfold Lookup, lookup, bolt.Get, blobsAt. by destruct (bolt.opened (DB s)).
Qed.

Lemma Store_inv (s s' : handlerBoltStorage) (devAddr : lorawan.DevAddr)
    (entry : handlerEntry) :
  Store s devAddr entry = Ok s' →
  ∃ blob,
    MarshalBinary entry = Ok blob ∧
    bolt.opened (DB s) = true ∧ bolt.opened (DB s') = true ∧
    bolt.buckets (DB s') =
      <["applications" :=
          <[devAddr := blobsAt s devAddr ++ [blob]]>
            (default ∅ (bolt.buckets (DB s) !! "applications"))]>
        (bolt.buckets (DB s)).
Proof.
  unfold Store, store, bolt.Get, bolt.Put, blobsAt.
  destruct (MarshalBinary entry) as [blob|]; simpl; [|done].
  destruct (bolt.opened (DB s)); simpl; [|done].
  intros [= <-]. by exists blob.
Qed.

Lemma Store_blobsAt (s s' : handlerBoltStorage) (devAddr devAddr' : lorawan.DevAddr)
    (entry : handlerEntry) (blob : list byte) :
  Store s devAddr entry = Ok s' → MarshalBinary entry = Ok blob →
  blobsAt s' devAddr' =
    if decide (devAddr = devAddr') then blobsAt s devAddr ++ [blob]
    else blobsAt s devAddr'.
Proof.
  intros (blob' & Hblob & _ & _ & Hb)%Store_inv Hblob'.
  assert (blob' = blob) as -> by congruence.
  unfold blobsAt at 1. rewrite Hb, lookup_insert_eq. simpl.
  rewrite lookup_insert. case_decide; [done|].
  unfold blobsAt. by destruct (bolt.buckets (DB s) !! "applications").
Qed.

Lemma Reset_inv (s s' : handlerBoltStorage) :
  Reset s = Ok s' →
  bolt.opened (DB s) = true ∧ bolt.opened (DB s') = true ∧
  bolt.buckets (DB s') = <["applications" := ∅]> (bolt.buckets (DB s)).
Proof.
  unfold Reset, resetDB, bolt.DeleteAll.
  destruct (bolt.opened (DB s)); simpl; [|done]. by intros [= <-].
Qed.

(** What every reachable storage satisfies: its only bucket is
    "applications", and every collection of blobs in it decodes. *)
Lemma NewHandlerStorage_NoFile (fs : bolt.FileSystem) :
  fs "handler_storage.db" = bolt.NoFile →
  NewHandlerStorage fs =
    Ok {| DB := {| bolt.opened := true;
                   bolt.buckets := {["applications" := ∅]} |} |}.
Proof.
  intros Hfile. unfold NewHandlerStorage, bolt.Open. rewrite Hfile. cbn.
  by rewrite lookup_empty, insert_empty.
Qed.

Lemma NewHandlerStorage_Database (fs : bolt.FileSystem)
    (content : gmap string (gmap (list byte) (list (list byte)))) :
  fs "handler_storage.db" = bolt.Database content →
  NewHandlerStorage fs =
    Ok {| DB := {| bolt.opened := true;
                   bolt.buckets :=
                     <["applications" := default ∅ (content !! "applications")]>
                       content |} |}.
Proof.
  intros Hfile. unfold NewHandlerStorage, bolt.Open. by rewrite Hfile.
Qed.

Lemma reachable_inv (s : handlerBoltStorage) :
  reachable s →
  (∃ bucket, bolt.buckets (DB s) = {["applications" := bucket]}) ∧
  ∀ devAddr, ∃ entries, decodeEntries (blobsAt s devAddr) = Ok entries.
Proof.
  induction 1 as [fs s Hfile Hnew|s0 fs s _ [[bucket Hb] IH] Hfile Hnew
                 |s devAddr entry s' _ [[bucket Hb] IH] Hwf Hstore
                 |s s' _ [[bucket Hb] IH] Hreset|s _ IH].
  - rewrite (NewHandlerStorage_NoFile fs Hfile) in Hnew. injection Hnew as <-.
    split.
    + by exists ∅.
    + intros devAddr. exists []. unfold blobsAt. cbn.
      by rewrite lookup_singleton_eq.
  - rewrite (NewHandlerStorage_Database fs _ Hfile) in Hnew.
    injection Hnew as <-.
    assert (Hsame : <["applications" := default ∅ (bolt.buckets (DB s0) !! "applications")]>
                      (bolt.buckets (DB s0)) = bolt.buckets (DB s0)).
    { rewrite Hb, lookup_singleton_eq. cbn. apply insert_singleton_eq. }
    split.
    + exists bucket. cbn. by rewrite Hsame.
    + intros devAddr. unfold blobsAt. cbn. rewrite Hsame. apply IH.
  - destruct (Store_inv _ _ _ _ Hstore) as (blob & Hblob & _ & _ & Hb'). split.
    + eexists. rewrite Hb', Hb. apply insert_singleton_eq.
    + intros devAddr'. rewrite (Store_blobsAt _ _ _ _ _ _ Hstore Hblob).
      case_decide; [|done].
      destruct (IH devAddr) as [old Hold].
      exists (old ++ [entry]). apply decodeEntries_app; [done|].
      simpl. by rewrite (decodeEntry_MarshalBinary entry blob).
  - destruct (Reset_inv _ _ Hreset) as (_ & _ & Hb'). split.
    + eexists. rewrite Hb', Hb. apply insert_singleton_eq.
    + intros devAddr. exists []. unfold blobsAt. by rewrite Hb', lookup_insert_eq.
  - done.
Qed.

Lemma Store_Lookup_step (s s' : handlerBoltStorage) (devAddr : lorawan.DevAddr)
    (entry : handlerEntry) (old : list handlerEntry) :
  wf_handlerEntry entry → Store s devAddr entry = Ok s' →
  Lookup s devAddr = Ok old → Lookup s' devAddr = Ok (old ++ [entry]).
Proof.
  intros Hwf Hstore Hold.
  destruct (Store_inv _ _ _ _ Hstore) as (blob & Hblob & Ho & Ho' & _).
  rewrite Lookup_blobsAt, Ho in Hold. rewrite Lookup_blobsAt, Ho'.
  rewrite (Store_blobsAt _ _ _ _ _ _ Hstore Hblob), decide_True by done.
  apply decodeEntries_app; [done|].
  simpl. by rewrite (decodeEntry_MarshalBinary entry blob).
Qed.

Lemma Store_Lookup_other (s s' : handlerBoltStorage) (devAddr devAddr' : lorawan.DevAddr)
    (entry : handlerEntry) :
  Store s devAddr entry = Ok s' → devAddr ≠ devAddr' →
  Lookup s' devAddr' = Lookup s devAddr'.
Proof.
  intros Hstore Hne.
  destruct (Store_inv _ _ _ _ Hstore) as (blob & Hblob & Ho & Ho' & _).
  rewrite !Lookup_blobsAt, Ho, Ho'.
  by rewrite (Store_blobsAt _ _ _ _ _ _ Hstore Hblob), decide_False.
Qed.

(** C8.  On a reachable storage, once [Store] of an entry under an address
    succeeds, [Lookup] of the address returns what it returned before with
    the entry appended; after a second successful [Store] under the same
    address it returns the earlier entries, then the first entry, then the
    second: insertion order, nothing removed, nothing overwritten. *)
Theorem Store_Lookup (s s1 s2 : handlerBoltStorage) (devAddr : lorawan.DevAddr)
    (entry entry2 : handlerEntry) :
  reachable s → wf_handlerEntry entry → wf_handlerEntry entry2 →
  Store s devAddr entry = Ok s1 → Store s1 devAddr entry2 = Ok s2 →
  ∃ old,
    Lookup s devAddr = Ok old ∧
    Lookup s1 devAddr = Ok (old ++ [entry]) ∧
    Lookup s2 devAddr = Ok (old ++ [entry; entry2]).
Proof.
  intros Hreach Hwf Hwf2 Hstore1 Hstore2.
  destruct (reachable_inv s Hreach) as [_ Hdec].
  destruct (Hdec devAddr) as [old Hold]. exists old.
  destruct (Store_inv _ _ _ _ Hstore1) as (_ & _ & Ho & _).
  assert (Lookup s devAddr = Ok old) as Hlook by (by rewrite Lookup_blobsAt, Ho).
  pose proof (Store_Lookup_step _ _ _ _ _ Hwf Hstore1 Hlook) as Hlook1.
  pose proof (Store_Lookup_step _ _ _ _ _ Hwf2 Hstore2 Hlook1) as Hlook2.
  rewrite <- app_assoc in Hlook2. done.
Qed.

(** C9.  Once [Reset] succeeds, [Lookup] returns the empty list, and no
    error, for every address; a reachable storage is then again the storage
    [NewHandlerStorage] creates where there is no file yet. *)
Theorem Reset_Lookup (s s' : handlerBoltStorage) :
  Reset s = Ok s' →
  (∀ devAddr, Lookup s' devAddr = Ok []) ∧
  (reachable s →
   ∀ fs, fs "handler_storage.db" = bolt.NoFile → NewHandlerStorage fs = Ok s').
Proof.
  intros Hreset. destruct (Reset_inv _ _ Hreset) as (_ & Ho' & Hb'). split.
  - intros devAddr. rewrite Lookup_blobsAt, Ho'. unfold blobsAt.
    by rewrite Hb', lookup_insert_eq.
  - intros [[bucket Hb] _]%reachable_inv fs Hfile.
    rewrite (NewHandlerStorage_NoFile fs Hfile).
    destruct s' as [[o' b']]; simpl in *. subst o' b'.
    by rewrite Hb, insert_singleton_eq.
Qed.

(** A file held by another process makes [NewHandlerStorage] fail; the file
    a storage has left is opened with the entries of that storage. *)
Lemma NewHandlerStorage_example :
  NewHandlerStorage (λ _, bolt.Locked) = Err ErrStorageFailure ∧
  Lookup (storageOr (NewHandlerStorage
                       (λ _, bolt.Database (bolt.buckets (DB storage12))))) addrA
    = Ok [e1; e2].
Proof. split; by vm_compute. Qed.

Lemma reachable_emptyStorage : reachable emptyStorage.
Proof. by apply (reachable_new noFiles). Qed.

Lemma reachable_storage1 : reachable storage1.
Proof.
  apply (reachable_Store emptyStorage addrA e1).
  - exact reachable_emptyStorage.
  - by vm_compute.
  - by vm_compute.
Qed.

(** [e2], then [e1'], stored under the address that already holds [e1]. *)
Lemma Store_Lookup_witness :
  ∃ old,
    Lookup storage1 addrA = Ok old ∧
    Lookup storage12 addrA = Ok (old ++ [e2]) ∧
    Lookup (storageOr (Store storage12 addrA e1')) addrA = Ok (old ++ [e2; e1']).
Proof.
  apply (Store_Lookup storage1 storage12
           (storageOr (Store storage12 addrA e1')) addrA e2 e1').
  - exact reachable_storage1.
  - vm_compute. done.
  - vm_compute. done.
  - vm_compute. reflexivity.
  - vm_compute. reflexivity.
Defined.

Lemma Reset_Lookup_witness :
  (∀ devAddr, Lookup emptyStorage devAddr = Ok []) ∧
  (reachable storage12 →
   ∀ fs, fs "handler_storage.db" = bolt.NoFile →
         NewHandlerStorage fs = Ok emptyStorage).
Proof.
  apply (Reset_Lookup storage12 emptyStorage). vm_compute. reflexivity.
Defined.

(** ** The choice of a candidate *)

Section chooseEntry.
Context {Packet : Type} {ops : core.PacketOps Packet}.

Lemma chooseEntry_first (packet : Packet) (l1 l2 : list handlerEntry)
    (entry : handlerEntry) :
  Forall (λ c, ¬ validates packet c) l1 → validates packet entry →
  chooseEntry packet (l1 ++ entry :: l2) = (Some entry, l1 ++ [entry]).
Proof.
  intros Hl1 Hentry. induction Hl1 as [|c l1 Hc _ IH]; simpl.
  - unfold validates in Hentry. by rewrite Hentry.
  - unfold validates in Hc. rewrite IH.
    by destruct (core.ValidateMIC packet (NwkSKey c)) as [[]|].
Qed.

Lemma chooseEntry_all_rejected (packet : Packet) (entries : list handlerEntry) :
  Forall (λ c, ¬ validates packet c) entries →
  chooseEntry packet entries = (None, entries).
Proof.
  induction 1 as [|c l Hc _ IH]; simpl; [done|].
  unfold validates in Hc. rewrite IH.
  by destruct (core.ValidateMIC packet (NwkSKey c)) as [[]|].
Qed.

Lemma chooseEntry_Some (packet : Packet) (entries : list handlerEntry)
    (entry : handlerEntry) :
  fst (chooseEntry packet entries) = Some entry →
  ∃ l1 l2, entries = l1 ++ entry :: l2 ∧ validates packet entry ∧
           Forall (λ c, ¬ validates packet c) l1.
Proof.
  induction entries as [|c l IH]; simpl; [done|].
  destruct (core.ValidateMIC packet (NwkSKey c)) as [[]|] eqn:Hc.
  - intros [= <-]. by exists [], l.
  - destruct (chooseEntry packet l) as [found examined]; simpl in *.
    intros (l1 & l2 & -> & Hv & Hl1)%IH. exists (c :: l1), l2.
    split_and!; [done..|]. constructor; [|done]. unfold validates. congruence.
  - destruct (chooseEntry packet l) as [found examined]; simpl in *.
    intros (l1 & l2 & -> & Hv & Hl1)%IH. exists (c :: l1), l2.
    split_and!; [done..|]. constructor; [|done]. unfold validates. congruence.
Qed.

Lemma chooseEntry_None (packet : Packet) (entries : list handlerEntry) :
  fst (chooseEntry packet entries) = None →
  Forall (λ c, ¬ validates packet c) entries.
Proof.
  induction entries as [|c l IH]; simpl; [by constructor|].
  destruct (core.ValidateMIC packet (NwkSKey c)) as [[]|] eqn:Hc; [done|..];
    destruct (chooseEntry packet l) as [found examined]; simpl in *;
    intros Hnone; (constructor; [unfold validates; congruence|by apply IH]).
Qed.

Lemma chooseEntry_quietMIC (packet : Packet) (entries : list handlerEntry) :
  chooseEntry (ops := quietMIC ops) packet entries = chooseEntry packet entries.
Proof.
  induction entries as [|c l IH]; simpl; [done|]. rewrite IH.
  by destruct (core.ValidateMIC packet (NwkSKey c)) as [[]|].
Qed.
End chooseEntry.

(** ** The loop over the packets *)

Section partitionPackets.
Context {Packet : Type} {ops : core.PacketOps Packet}.
Variable Lookup : lorawan.DevAddr → result (list handlerEntry).

Implicit Types (partitions : gmap partitionId (handlerPartition Packet)).
Implicit Types (packet : Packet) (packets : list Packet) (id : partitionId).

Lemma routed_cons id packet packets :
  routed Lookup id (packet :: packets) =
    if decide (newPartitionId <$> matchOf Lookup packet = Some id)
    then packet :: routed Lookup id packets
    else routed Lookup id packets.
Proof. unfold routed. by rewrite filter_cons. Qed.

Lemma elem_of_routed id packet packets :
  packet ∈ routed Lookup id packets ↔
  packet ∈ packets ∧ newPartitionId <$> matchOf Lookup packet = Some id.
Proof. unfold routed. rewrite list_elem_of_filter. tauto. Qed.

(** The entry of the last packet routed to [id]. *)
Lemma last_routed id packets :
  routed Lookup id packets ≠ [] →
  ∃ packet entry,
    last (routed Lookup id packets) = Some packet ∧
    matchOf Lookup packet = Some entry ∧ newPartitionId entry = id.
Proof.
  intros [packet Hlast]%last_is_Some. exists packet.
  pose proof (last_Some_elem_of _ _ Hlast) as [_ Hid]%elem_of_routed.
  destruct (matchOf Lookup packet) as [entry|]; [|done].
  injection Hid as Hid. by exists entry.
Qed.

Lemma assign_lookup partitions packet entry id :
  assign partitions packet entry !! id =
    if decide (newPartitionId entry = id)
    then Some {| partitionEntry := entry; Id := id;
                 Packets := default [] (Packets <$> partitions !! id) ++ [packet] |}
    else partitions !! id.
Proof.
  unfold assign. rewrite lookup_insert. by case_decide; subst.
Qed.

(** A packet that is not [readable] stops the loop. *)
Lemma partitionPackets_step packet packets partitions :
  partitionPackets Lookup (packet :: packets) partitions =
    match core.DevAddr packet with
    | Err _ => Err ErrInvalidStructure
    | Ok devAddr =>
        match Lookup devAddr with
        | Err e => Err e
        | Ok _ =>
            partitionPackets Lookup packets
              (match matchOf Lookup packet with
               | Some entry => assign partitions packet entry
               | None => partitions
               end)
        end
    end.
Proof.
  simpl. unfold matchOf.
  destruct (core.DevAddr packet) as [devAddr|]; [|done].
  destruct (Lookup devAddr) as [entries|]; [|done].
  by destruct (fst (chooseEntry packet entries)).
Qed.

(** The map the loop ends with: under each id, the partition holds what it
    held before, then the packets of the batch routed to that id, in the
    order of the batch, next to the entry of the last of them. *)
Lemma partitionPackets_lookup packets partitions partitions' id :
  partitionPackets Lookup packets partitions = Ok partitions' →
  partitions' !! id =
    match last (routed Lookup id packets) ≫= matchOf Lookup with
    | Some entry =>
        Some {| partitionEntry := entry; Id := id;
                Packets := default [] (Packets <$> partitions !! id) ++
                           routed Lookup id packets |}
    | None => partitions !! id
    end.
Proof.
  revert partitions. induction packets as [|packet packets IH]; intros partitions.
  { simpl. by intros [= <-]. }
  rewrite partitionPackets_step.
  destruct (core.DevAddr packet) as [devAddr|] eqn:Haddr; [|done].
  destruct (Lookup devAddr) as [entries|] eqn:Hlook; [|done].
  intros Hloop. rewrite (IH _ Hloop), routed_cons. clear IH Hloop.
  destruct (matchOf Lookup packet) as [entry|] eqn:Hmatch;
    [|by rewrite decide_False by (by intros [=])].
  rewrite assign_lookup.
  destruct (decide (newPartitionId entry = id)) as [Hid|Hid].
  - rewrite decide_True by (simpl; congruence). rewrite last_cons.
    destruct (last (routed Lookup id packets)) as [packet'|] eqn:Hlast.
    + destruct (matchOf Lookup packet') as [entry'|] eqn:Hm'.
      * simpl. rewrite Hm'. simpl. by rewrite <- app_assoc.
      * apply last_Some_elem_of, elem_of_routed in Hlast as [_ Hlast].
        by rewrite Hm' in Hlast.
    + apply last_None in Hlast. simpl. by rewrite Hmatch, Hlast.
  - by rewrite decide_False by (simpl; congruence).
Qed.

Lemma partitionPackets_readable packets partitions :
  Forall (readable Lookup) packets →
  ∃ partitions', partitionPackets Lookup packets partitions = Ok partitions'.
Proof.
  intros Hall. revert partitions.
  induction Hall as [|packet packets (devAddr & entries & Haddr & Hlook) _ IH];
    intros partitions.
  - by eexists.
  - rewrite partitionPackets_step, Haddr, Hlook. apply IH.
Qed.

(** A packet whose address cannot be read makes the loop fail: on that
    packet, or earlier on a lookup that fails. *)
Lemma partitionPackets_bad_address pre bad post partitions e :
  core.DevAddr bad = Err e →
  ∃ e', partitionPackets Lookup (pre ++ bad :: post) partitions = Err e' ∧
        (e' = ErrInvalidStructure ∨
         ∃ q devAddr, q ∈ pre ∧ core.DevAddr q = Ok devAddr ∧
                      Lookup devAddr = Err e').
Proof.
  intros Hbad. revert partitions.
  induction pre as [|q pre IH]; intros partitions; simpl app;
    rewrite partitionPackets_step.
  - rewrite Hbad. exists ErrInvalidStructure. by split; [|left].
  - destruct (core.DevAddr q) as [devAddr|] eqn:Haddr;
      [|exists ErrInvalidStructure; by split; [|left]].
    destruct (Lookup devAddr) as [entries|e'] eqn:Hlook.
    + destruct (IH (match matchOf Lookup q with
                    | Some entry => assign partitions q entry
                    | None => partitions
                    end)) as (e' & -> & He').
      exists e'. split; [done|]. destruct He' as [->|(q' & a & Hq' & Ha & Hl)]; [by left|].
      right. exists q', a. split_and!; [|done..]. by right.
    + exists e'. split; [done|]. right. exists q, devAddr. split_and!; [|done..]. by left.
Qed.

(** The loop passes the packets that are [readable] and goes on with the
    rest. *)
Lemma partitionPackets_skip_readable pre rest partitions :
  Forall (readable Lookup) pre →
  ∃ partitions',
    partitionPackets Lookup (pre ++ rest) partitions =
    partitionPackets Lookup rest partitions'.
Proof.
  intros Hpre. revert partitions.
  induction Hpre as [|q pre (devAddr & entries & Haddr & Hlook) _ IH];
    intros partitions.
  - by exists partitions.
  - simpl app. rewrite partitionPackets_step, Haddr, Hlook. apply IH.
Qed.

(** The first lookup that fails ends the loop with its error. *)
Lemma partitionPackets_Lookup_failed pre q rest partitions devAddr e :
  Forall (readable Lookup) pre →
  core.DevAddr q = Ok devAddr → Lookup devAddr = Err e →
  partitionPackets Lookup (pre ++ q :: rest) partitions = Err e.
Proof.
  intros Hpre Haddr Hlook.
  destruct (partitionPackets_skip_readable pre (q :: rest) partitions Hpre)
    as [partitions' ->].
  by rewrite partitionPackets_step, Haddr, Hlook.
Qed.

(** While no lookup fails, an address that cannot be read ends the loop
    with [ErrInvalidStructure]. *)
Lemma partitionPackets_bad_address_first pre bad post partitions e :
  core.DevAddr bad = Err e →
  (∀ q devAddr, q ∈ pre → core.DevAddr q = Ok devAddr →
                ∃ entries, Lookup devAddr = Ok entries) →
  partitionPackets Lookup (pre ++ bad :: post) partitions = Err ErrInvalidStructure.
Proof.
  intros Hbad. revert partitions.
  induction pre as [|q pre IH]; intros partitions Hpre; simpl app;
    rewrite partitionPackets_step.
  - by rewrite Hbad.
  - destruct (core.DevAddr q) as [devAddr|] eqn:Haddr; [|done].
    destruct (Hpre q devAddr) as [entries ->]; [by left|done|].
    apply IH. intros q' a Hq'. apply Hpre. by right.
Qed.
End partitionPackets.

(** ** The partitions returned *)

Section Partition_results.
Context {Packet : Type} {ops : core.PacketOps Packet}.
Variable Lookup : lorawan.DevAddr → result (list handlerEntry).
Variable rangeOrder :
  list (partitionId * handlerPartition Packet) →
  list (partitionId * handlerPartition Packet).

(** Whatever the order of the visit, [range] visits each entry of the map
    once. *)
Hypothesis rangeOrder_perm : ∀ l, rangeOrder l ≡ₚ l.

Implicit Types (packet : Packet) (packets : list Packet) (id : partitionId).
Implicit Types (P : handlerPartition Packet) (res : list (handlerPartition Packet)).

Lemma Partition_Ok packets res :
  Partition Lookup rangeOrder packets = Ok res →
  res ≠ [] ∧
  ∃ partitions,
    partitionPackets Lookup packets ∅ = Ok partitions ∧
    res = (rangeOrder (map_to_list partitions)).*2.
Proof.
  unfold Partition.
  destruct (partitionPackets Lookup packets ∅) as [partitions|]; simpl; [|done].
  case_decide as Hlen; [done|]. intros [= <-]. split; [|by eexists].
  intros Hnil. by rewrite Hnil in Hlen.
Qed.

Lemma elem_of_range (partitions : gmap partitionId (handlerPartition Packet)) P :
  P ∈ (rangeOrder (map_to_list partitions)).*2 ↔ ∃ id, partitions !! id = Some P.
Proof.
  rewrite rangeOrder_perm, list_elem_of_fmap. split.
  - intros ([id P'] & -> & Hin). exists id. by apply elem_of_map_to_list.
  - intros [id Hid]. exists (id, P). split; [done|]. by apply elem_of_map_to_list.
Qed.

(** A batch of readable packets, one of them matched, makes the call
    succeed. *)
Lemma Partition_succeeds packets packet entry :
  Forall (readable Lookup) packets →
  packet ∈ packets → matchOf Lookup packet = Some entry →
  ∃ res, Partition Lookup rangeOrder packets = Ok res.
Proof.
  intros Hread Hin Hmatch.
  destruct (partitionPackets_readable Lookup packets ∅ Hread) as [partitions Hloop].
  unfold Partition. rewrite Hloop. simpl.
  assert (∃ P, P ∈ (rangeOrder (map_to_list partitions)).*2) as [P HP].
  { destruct (last_routed Lookup (newPartitionId entry) packets)
      as (q & entry' & Hlast & Hq & _).
    { intros Hnil.
      assert (packet ∈ routed Lookup (newPartitionId entry) packets) as Hr
        by (apply elem_of_routed; by rewrite Hmatch).
      rewrite Hnil in Hr. by apply not_elem_of_nil in Hr. }
    eexists. apply elem_of_range. exists (newPartitionId entry).
    rewrite (partitionPackets_lookup _ _ _ _ _ Hloop), Hlast. simpl.
    by rewrite Hq. }
  destruct ((rangeOrder (map_to_list partitions)).*2) as [|P' res] eqn:Hres.
  { by apply not_elem_of_nil in HP. }
  rewrite decide_False by done. by eexists.
Qed.

(** The partitions of a successful call: one for each id some packet of
    the batch is routed to, holding the packets routed to it, in the order
    of the batch, and the entry the last of them was resolved to. *)
Lemma elem_of_Partition packets res P :
  Partition Lookup rangeOrder packets = Ok res →
  P ∈ res ↔
  ∃ entry,
    last (routed Lookup (Id P) packets) ≫= matchOf Lookup = Some entry ∧
    P = {| partitionEntry := entry; Id := Id P;
           Packets := routed Lookup (Id P) packets |}.
Proof.
  intros (_ & partitions & Hloop & ->)%Partition_Ok.
  rewrite elem_of_range. split.
  - intros [id Hid].
    rewrite (partitionPackets_lookup _ _ _ _ id Hloop), lookup_empty in Hid.
    destruct (last (routed Lookup id packets) ≫= matchOf Lookup)
      as [entry|] eqn:Hlast; [|done].
    injection Hid as <-. simpl. by exists entry.
  - intros (entry & Hlast & HP). exists (Id P).
    rewrite (partitionPackets_lookup _ _ _ _ (Id P) Hloop), lookup_empty, Hlast.
    by rewrite HP at 3.
Qed.

Lemma Partition_routed packets res packet entry :
  Partition Lookup rangeOrder packets = Ok res →
  packet ∈ packets → matchOf Lookup packet = Some entry →
  ∃ P, P ∈ res ∧ Id P = newPartitionId entry ∧ packet ∈ Packets P ∧
       Packets P = routed Lookup (newPartitionId entry) packets ∧
       last (Packets P) ≫= matchOf Lookup = Some (partitionEntry P).
Proof.
  intros Hres Hin Hmatch.
  assert (packet ∈ routed Lookup (newPartitionId entry) packets) as Hrouted.
  { apply elem_of_routed. by rewrite Hmatch. }
  destruct (last_routed Lookup (newPartitionId entry) packets)
    as (packet' & entry' & Hlast & Hm' & Hid').
  { intros Hnil. rewrite Hnil in Hrouted. by apply not_elem_of_nil in Hrouted. }
  exists {| partitionEntry := entry'; Id := newPartitionId entry;
            Packets := routed Lookup (newPartitionId entry) packets |}.
  split_and!; [|done..|by (simpl; rewrite Hlast)].
  apply (elem_of_Partition packets res); [done|].
  exists entry'. simpl. by rewrite Hlast.
Qed.

Lemma Partition_packet_id packets res P packet entry :
  Partition Lookup rangeOrder packets = Ok res →
  P ∈ res → packet ∈ Packets P → matchOf Lookup packet = Some entry →
  Id P = newPartitionId entry.
Proof.
  intros Hres (entry' & _ & ->)%(elem_of_Partition packets res); [|done].
  simpl. intros [_ Hid]%elem_of_routed Hmatch.
  rewrite Hmatch in Hid. by injection Hid.
Qed.

Lemma Partition_eq packets res P P' :
  Partition Lookup rangeOrder packets = Ok res →
  P ∈ res → P' ∈ res → Id P = Id P' → P = P'.
Proof.
  intros Hres (entry & Hlast & ->)%(elem_of_Partition packets res); [|done].
  intros (entry' & Hlast' & ->)%(elem_of_Partition packets res); [|done].
  simpl in *. intros Hid. rewrite <- Hid in *. congruence.
Qed.

Lemma matchOf_first packet devAddr l1 entry l2 :
  core.DevAddr packet = Ok devAddr → Lookup devAddr = Ok (l1 ++ entry :: l2) →
  Forall (λ c, ¬ validates packet c) l1 → validates packet entry →
  matchOf Lookup packet = Some entry.
Proof.
  intros Haddr Hlook Hl1 Hentry. unfold matchOf.
  by rewrite Haddr, Hlook, chooseEntry_first.
Qed.
End Partition_results.

(** ** What [Partition] guarantees *)

Section Partition_claims.
Context {Packet : Type} {ops : core.PacketOps Packet}.
Variable Lookup : lorawan.DevAddr → result (list handlerEntry).
Variable rangeOrder :
  list (partitionId * handlerPartition Packet) →
  list (partitionId * handlerPartition Packet).
Hypothesis rangeOrder_perm : ∀ l, rangeOrder l ≡ₚ l.

Implicit Types (packet : Packet) (packets : list Packet) (id : partitionId).
Implicit Types (P : handlerPartition Packet) (res : list (handlerPartition Packet)).

(** C1.  First match wins.  Take a batch whose packets all have an address
    that can be read and a lookup that succeeds, a packet of it whose
    address is [devAddr], and let [entry] be the first candidate, in the
    order of [Lookup devAddr], that the packet's integrity check accepts.
    The loop over the candidates breaks on [entry], having run the check on
    the candidates up to [entry] and on none after it; the call succeeds,
    and the packet lies in the partition of [entry]'s id and in no partition
    of another id, whatever the candidates after [entry] would have
    answered. *)
Theorem Partition_first_match packets packet devAddr l1 entry l2 :
  (∀ q, q ∈ packets → readable Lookup q) →
  packet ∈ packets →
  core.DevAddr packet = Ok devAddr →
  Lookup devAddr = Ok (l1 ++ entry :: l2) →
  Forall (λ c, ¬ validates packet c) l1 →
  validates packet entry →
  chooseEntry packet (l1 ++ entry :: l2) = (Some entry, l1 ++ [entry]) ∧
  ∃ res, Partition Lookup rangeOrder packets = Ok res ∧
    (∃ P, P ∈ res ∧ Id P = newPartitionId entry ∧ packet ∈ Packets P) ∧
    (∀ P, P ∈ res → packet ∈ Packets P → Id P = newPartitionId entry).
Proof.
  intros Hread Hin Haddr Hlook Hl1 Hentry.
  split; [by apply chooseEntry_first|].
  pose proof (matchOf_first Lookup _ _ _ _ _ Haddr Hlook Hl1 Hentry) as Hmatch.
  destruct (Partition_succeeds Lookup rangeOrder rangeOrder_perm
              packets packet entry) as [res Hres]; [by apply Forall_forall|done..|].
  exists res. split_and!; [done| |].
  - destruct (Partition_routed Lookup rangeOrder rangeOrder_perm
                packets res packet entry Hres Hin Hmatch)
      as (P & HP & Hid & Hpacket & _).
    by exists P.
  - intros P HP Hpacket.
    by apply (Partition_packet_id Lookup rangeOrder rangeOrder_perm
                packets res P packet entry).
Qed.

(** C2, as amended.  Let [ee1] and [ee2] be candidates stored under the
    address of a packet of a successful batch, [ee2] the only candidate
    that has its network session key, and let the packet's integrity check
    accept, among the keys of the candidates, that key only.  The packet
    lies in the partition whose id is the [AppEUI] of [ee2] followed by its
    [DevAddr], and in no other partition.  When no packet of the batch is
    resolved to another entry that has this id, the entry of that partition
    is [ee2], and so is not [ee1]. *)
Theorem Partition_collision packets res packet devAddr entries ee1 ee2 :
  Partition Lookup rangeOrder packets = Ok res →
  packet ∈ packets →
  core.DevAddr packet = Ok devAddr →
  Lookup devAddr = Ok entries →
  ee1 ∈ entries → ee2 ∈ entries →
  wf_handlerEntry ee2 →
  validates packet ee2 →
  ¬ validates packet ee1 →
  (∀ c, c ∈ entries → validates packet c → NwkSKey c = NwkSKey ee2) →
  (∀ c, c ∈ entries → NwkSKey c = NwkSKey ee2 → c = ee2) →
  ∃ P, P ∈ res ∧ Id P = AppEUI ee2 ++ DevAddr ee2 ∧ packet ∈ Packets P ∧
       (∀ P', P' ∈ res → packet ∈ Packets P' → P' = P) ∧
       ((∀ q c, q ∈ packets → matchOf Lookup q = Some c →
                newPartitionId c = newPartitionId ee2 → c = ee2) →
        partitionEntry P = ee2 ∧ partitionEntry P ≠ ee1).
Proof.
  intros Hres Hin Haddr Hlook Hin1 Hin2 Hwf Hv2 Hv1 Hkey Hone.
  assert (matchOf Lookup packet = Some ee2) as Hmatch.
  { unfold matchOf. rewrite Haddr, Hlook.
    destruct (fst (chooseEntry packet entries)) as [c|] eqn:Hc.
    - apply chooseEntry_Some in Hc as (l1 & l2 & -> & Hv & _).
      assert (c ∈ l1 ++ c :: l2) as Hcin by (apply elem_of_app; right; by left).
      f_equal. apply Hone; [done|]. by apply Hkey.
    - apply chooseEntry_None in Hc. rewrite Forall_forall in Hc.
      by destruct (Hc ee2 Hin2). }
  destruct (Partition_routed Lookup rangeOrder rangeOrder_perm
              packets res packet ee2 Hres Hin Hmatch)
    as (P & HP & Hid & Hpacket & Hpackets & Hlast).
  exists P. split_and!; [done| |done| |].
  - rewrite Hid. by apply newPartitionId_wf.
  - intros P' HP' Hpacket'.
    apply (Partition_eq Lookup rangeOrder rangeOrder_perm packets res); [done..|].
    rewrite Hid.
    by apply (Partition_packet_id Lookup rangeOrder rangeOrder_perm
                packets res P' packet ee2).
  - intros Hshare.
    assert (partitionEntry P = ee2) as Hentry.
    { destruct (last (Packets P)) as [q|] eqn:Hq; [|done]. simpl in Hlast.
      apply last_Some_elem_of in Hq. rewrite Hpackets in Hq.
      apply elem_of_routed in Hq as [Hq Hqid]. apply (Hshare q); [done..|].
      rewrite Hlast in Hqid. by injection Hqid. }
    split; [done|]. rewrite Hentry. by intros ->.
Qed.

(** C3, as amended.  A batch holding a packet whose address cannot be read
    never yields a partition list: the call fails.  It fails with
    [ErrInvalidStructure] when the lookup of every packet offered before
    that packet succeeds; and when a lookup for a packet offered before it
    is the first thing to fail, the call fails with the error of that
    lookup, unchanged. *)
Theorem Partition_unreadable_address pre bad post e :
  core.DevAddr bad = Err e →
  (∃ e', Partition Lookup rangeOrder (pre ++ bad :: post) = Err e' ∧
         (e' = ErrInvalidStructure ∨
          ∃ q devAddr, q ∈ pre ∧ core.DevAddr q = Ok devAddr ∧
                       Lookup devAddr = Err e')) ∧
  ((∀ q devAddr, q ∈ pre → core.DevAddr q = Ok devAddr →
                 ∃ entries, Lookup devAddr = Ok entries) →
   Partition Lookup rangeOrder (pre ++ bad :: post) = Err ErrInvalidStructure) ∧
  (∀ pre1 q pre2 devAddr e',
     pre = pre1 ++ q :: pre2 → Forall (readable Lookup) pre1 →
     core.DevAddr q = Ok devAddr → Lookup devAddr = Err e' →
     Partition Lookup rangeOrder (pre ++ bad :: post) = Err e').
Proof.
  intros Hbad. unfold Partition. split_and!.
  - destruct (partitionPackets_bad_address Lookup pre bad post ∅ e Hbad)
      as (e' & -> & He').
    by exists e'.
  - intros Hpre.
    by rewrite (partitionPackets_bad_address_first Lookup pre bad post ∅ e Hbad Hpre).
  - intros pre1 q pre2 devAddr e' -> Hpre1 Haddr Hlook.
    rewrite <- app_assoc. simpl app.
    by rewrite (partitionPackets_Lookup_failed Lookup pre1 q _ ∅ devAddr e'
                  Hpre1 Haddr Hlook).
Qed.

(** C4.  Take a batch in which every address can be read and every lookup
    succeeds.  If no packet has a candidate its integrity check accepts
    (its address has no candidate at all, or none validates), the call
    fails with [ErrNotFound]; if some packet has one, the call returns a
    list of partitions that is not empty. *)
Theorem Partition_NotFound packets :
  (∀ packet, packet ∈ packets → readable Lookup packet) →
  ((∀ packet devAddr entries,
      packet ∈ packets → core.DevAddr packet = Ok devAddr →
      Lookup devAddr = Ok entries → Forall (λ c, ¬ validates packet c) entries) →
   Partition Lookup rangeOrder packets = Err ErrNotFound) ∧
  ((∃ packet devAddr entries c,
      packet ∈ packets ∧ core.DevAddr packet = Ok devAddr ∧
      Lookup devAddr = Ok entries ∧ c ∈ entries ∧ validates packet c) →
   ∃ res, Partition Lookup rangeOrder packets = Ok res ∧ res ≠ []).
Proof.
  intros Hread.
  destruct (partitionPackets_readable Lookup packets ∅) as [partitions Hloop].
  { by apply Forall_forall. }
  unfold Partition. rewrite Hloop. simpl. split.
  - intros Hnone.
    assert (partitions = ∅) as ->.
    { apply map_eq. intros id.
      rewrite (partitionPackets_lookup _ _ _ _ id Hloop), lookup_empty.
      destruct (last (routed Lookup id packets) ≫= matchOf Lookup)
        as [entry|] eqn:Hlast; [|done].
      destruct (last (routed Lookup id packets)) as [packet|] eqn:Hpacket; [|done].
      simpl in Hlast.
      apply last_Some_elem_of, elem_of_routed in Hpacket as [Hin _].
      unfold matchOf in Hlast.
      destruct (core.DevAddr packet) as [devAddr|] eqn:Haddr; [|done].
      destruct (Lookup devAddr) as [entries|] eqn:Hlook; [|done].
      apply chooseEntry_Some in Hlast as (l1 & l2 & -> & Hv & _).
      specialize (Hnone packet devAddr _ Hin Haddr Hlook).
      rewrite Forall_forall in Hnone. destruct (Hnone entry); [|done].
      apply elem_of_app. right. by left. }
    rewrite map_to_list_empty.
    assert (rangeOrder [] = []) as -> by (by apply Permutation_nil_r).
    done.
  - intros (packet & devAddr & entries & c & Hin & Haddr & Hlook & Hc & Hv).
    destruct (matchOf Lookup packet) as [entry|] eqn:Hmatch.
    2:{ unfold matchOf in Hmatch. rewrite Haddr, Hlook in Hmatch.
        apply chooseEntry_None in Hmatch. rewrite Forall_forall in Hmatch.
        by destruct (Hmatch c Hc). }
    assert (∃ P, P ∈ (rangeOrder (map_to_list partitions)).*2) as [P HP].
    { destruct (last_routed Lookup (newPartitionId entry) packets)
        as (q & entry' & Hlast & Hq & _).
      { intros Hnil.
        assert (packet ∈ routed Lookup (newPartitionId entry) packets) as Hr
          by (apply elem_of_routed; by rewrite Hmatch).
        rewrite Hnil in Hr. by apply not_elem_of_nil in Hr. }
      eexists. apply (elem_of_range rangeOrder rangeOrder_perm).
      exists (newPartitionId entry).
      rewrite (partitionPackets_lookup _ _ _ _ _ Hloop), Hlast. simpl.
      by rewrite Hq. }
    destruct ((rangeOrder (map_to_list partitions)).*2) as [|P' res] eqn:Hres.
    { by apply not_elem_of_nil in HP. }
    rewrite decide_False by done. by eexists.
Qed.

(** X20.  A partition of a successful call holds exactly the packets of the
    batch that are resolved to an entry of its id, in the order in which
    the batch offered them; it holds at least one; its id is the id of its
    entry, and its entry is the entry the last of its packets was resolved
    to. *)
Theorem Partition_order packets res P :
  Partition Lookup rangeOrder packets = Ok res → P ∈ res →
  Packets P = routed Lookup (Id P) packets ∧
  Packets P `sublist_of` packets ∧
  Packets P ≠ [] ∧
  Id P = newPartitionId (partitionEntry P) ∧
  last (Packets P) ≫= matchOf Lookup = Some (partitionEntry P).
Proof.
  intros Hres (entry & Hlast & ->)%(elem_of_Partition Lookup rangeOrder
                                      rangeOrder_perm packets res); [|done].
  simpl. split_and!; [done| | | |done].
  - apply sublist_filter.
  - intros Hnil. by rewrite Hnil in Hlast.
  - destruct (last (routed Lookup (Id P) packets)) as [q|] eqn:Hq; [|done].
    simpl in Hlast.
    apply last_Some_elem_of, elem_of_routed in Hq as [_ Hid].
    rewrite Hlast in Hid. by injection Hid.
Qed.
End Partition_claims.

(** ** Errors of the integrity check *)

Lemma partitionPackets_quietMIC {Packet : Type} (ops : core.PacketOps Packet)
    (Lookup : lorawan.DevAddr → result (list handlerEntry))
    (packets : list Packet) (partitions : gmap partitionId (handlerPartition Packet)) :
  partitionPackets (ops := quietMIC ops) Lookup packets partitions =
  partitionPackets (ops := ops) Lookup packets partitions.
Proof.
  revert partitions. induction packets as [|packet packets IH]; intros partitions;
    simpl; [done|].
  destruct (core.DevAddr packet) as [devAddr|]; [|done].
  destruct (Lookup devAddr) as [entries|]; [|done].
  rewrite (chooseEntry_quietMIC (ops := ops)).
  by destruct (fst (chooseEntry packet entries)); rewrite IH.
Qed.

(** C10.  A candidate on which [ValidateMIC] returns an error is passed over
    exactly as one on which it returns [false]: the loop over the
    candidates, and with it the whole call, gives what it gives on the same
    packets with every such error replaced by [false].  No error of
    [ValidateMIC] reaches the caller. *)
Theorem ValidateMIC_error_skipped {Packet : Type} (ops : core.PacketOps Packet)
    (Lookup : lorawan.DevAddr → result (list handlerEntry))
    (rangeOrder : list (partitionId * handlerPartition Packet) →
                  list (partitionId * handlerPartition Packet)) :
  (∀ packet entry entries e,
     core.ValidateMIC packet (NwkSKey entry) = Err e →
     chooseEntry packet (entry :: entries) =
       (fst (chooseEntry packet entries), entry :: snd (chooseEntry packet entries))) ∧
  (∀ packet entries,
     chooseEntry (ops := ops) packet entries =
     chooseEntry (ops := quietMIC ops) packet entries) ∧
  (∀ packets,
     Partition (ops := ops) Lookup rangeOrder packets =
     Partition (ops := quietMIC ops) Lookup rangeOrder packets).
Proof.
  split_and!.
  - intros packet entry entries e He. simpl. rewrite He.
    by destruct (chooseEntry packet entries).
  - intros packet entries. by rewrite chooseEntry_quietMIC.
  - intros packets. unfold Partition. by rewrite partitionPackets_quietMIC.
Qed.

(** ** The results on the sample data *)

Lemma elem_of_3 {A : Type} (x a b c : A) : x ∈ [a; b; c] → x = a ∨ x = b ∨ x = c.
Proof. rewrite !elem_of_cons, elem_of_nil. tauto. Qed.

Lemma elem_of_2 {A : Type} (x a b : A) : x ∈ [a; b] → x = a ∨ x = b.
Proof. rewrite !elem_of_cons, elem_of_nil. tauto. Qed.

Lemma readable_sample (s : handlerBoltStorage) (packet : testPacket) :
  bolt.opened (DB s) = true → reachable s → is_Some (tpAddr packet) →
  readable (Lookup s) packet.
Proof.
  intros Ho [_ Hdec]%reachable_inv [devAddr Haddr].
  destruct (Hdec devAddr) as [entries Hentries].
  exists devAddr, entries. split.
  - simpl. by rewrite Haddr.
  - by rewrite Lookup_blobsAt, Ho.
Qed.

Lemma reachable_storage12 : reachable storage12.
Proof.
  apply (reachable_Store storage1 addrA e2).
  - exact reachable_storage1.
  - by vm_compute.
  - by vm_compute.
Qed.

(** [p12] validates under both stored keys and goes with [e1], the first. *)
Lemma Partition_first_match_witness :
  chooseEntry p12 ([] ++ e1 :: [e2]) = (Some e1, [] ++ [e1]) ∧
  ∃ res, Partition (Lookup storage12) reverse [p1; p12; p3] = Ok res ∧
    (∃ P, P ∈ res ∧ Id P = newPartitionId e1 ∧ p12 ∈ Packets P) ∧
    (∀ P, P ∈ res → p12 ∈ Packets P → Id P = newPartitionId e1).
Proof.
  apply (Partition_first_match (Lookup storage12) reverse reverse_Permutation
           [p1; p12; p3] p12 addrA [] e1 [e2]).
  - intros q [->|[->| ->]]%elem_of_3;
      (apply readable_sample; [reflexivity | exact reachable_storage12 | by eexists]).
  - right. left.
  - reflexivity.
  - vm_compute. reflexivity.
  - constructor.
  - vm_compute. reflexivity.
Defined.

(** The end-to-end scenario: [p2] goes with [e2], not with [e1]. *)
Lemma Partition_collision_witness :
  ∃ P, P ∈ [partitionX [p1]; partitionY [p2]] ∧
       Id P = AppEUI e2 ++ DevAddr e2 ∧ p2 ∈ Packets P ∧
       (∀ P', P' ∈ [partitionX [p1]; partitionY [p2]] → p2 ∈ Packets P' → P' = P) ∧
       partitionEntry P = e2 ∧ partitionEntry P ≠ e1.
Proof.
  destruct (Partition_collision (Lookup storage12) reverse reverse_Permutation
              [p1; p2; p3] [partitionX [p1]; partitionY [p2]] p2 addrA [e1; e2] e1 e2)
    as (P & HP & Hid & Hin & Honly & Hentry).
  - vm_compute. reflexivity.
  - right. left.
  - reflexivity.
  - vm_compute. reflexivity.
  - left.
  - right. left.
  - vm_compute. done.
  - vm_compute. reflexivity.
  - vm_compute. discriminate.
  - intros c [->| ->]%elem_of_2; [vm_compute; discriminate | done].
  - intros c [->| ->]%elem_of_2; [vm_compute; discriminate | done].
  - exists P. split_and!; [done..|apply Hentry|apply Hentry];
      (intros q c [->|[->| ->]]%elem_of_3; vm_compute; intros [= <-]; try done;
       discriminate).
Defined.

(** C2 does not hold for every pair of entries.  On the one hand [e3],
    stored before [e2], has the key of [e2]: [p2] validates only under that
    key and goes with [e3], the first candidate that has it, into the
    partition of another application.  On the other hand [e1] and [e1']
    share application and address, hence the id: [p2] validates only under
    the key of [e1'], and once [p1] has followed it the one partition of
    that id carries [e1]. *)
Lemma Partition_collision_counterexample :
  (Lookup storage132 addrA = Ok [e1; e3; e2] ∧
   validates p2 e2 ∧ ¬ validates p2 e1 ∧
   Forall (λ c, validates p2 c → NwkSKey c = NwkSKey e2) [e1; e3; e2] ∧
   Partition (Lookup storage132) id [p2] = Ok [partitionZ [p2]]) ∧
  (Lookup storage11' addrA = Ok [e1; e1'] ∧
   validates p2 e1' ∧ ¬ validates p2 e1 ∧
   Forall (λ c, validates p2 c → NwkSKey c = NwkSKey e1') [e1; e1'] ∧
   Partition (Lookup storage11') id [p2; p1] = Ok [partitionX [p2; p1]]).
Proof.
  split; split_and!; try (by vm_compute);
    repeat constructor; vm_compute; (done || by intros [=]).
Qed.

(** With [storage12] open the call fails on the address of [pBad]; once the
    storage has been closed the lookup for [p1] fails before that. *)
Lemma Partition_unreadable_address_witness :
  Partition (Lookup storage12) id ([p1] ++ pBad :: [p2]) = Err ErrInvalidStructure ∧
  Partition (Lookup (Close storage12)) id ([p1] ++ pBad :: [p2])
    = Err ErrStorageFailure.
Proof.
  assert (core.DevAddr pBad = Err ErrInvalidStructure) as Hbad by reflexivity.
  split.
  - apply (proj1 (proj2 (Partition_unreadable_address (Lookup storage12) id
                           [p1] pBad [p2] ErrInvalidStructure Hbad))).
    intros q devAddr ->%list_elem_of_singleton [= <-]. vm_compute. by eexists.
  - apply (proj2 (proj2 (Partition_unreadable_address (Lookup (Close storage12)) id
                           [p1] pBad [p2] ErrInvalidStructure Hbad))
             [] p1 [] addrA ErrStorageFailure).
    + reflexivity.
    + constructor.
    + reflexivity.
    + vm_compute. reflexivity.
Defined.

(** C3 does not hold for every batch: on a storage that has been closed
    the lookup for [p1] fails before the address of [pBad] is asked for,
    and its error is what the call returns. *)
Lemma Partition_unreadable_address_counterexample :
  core.DevAddr pBad = Err ErrInvalidStructure ∧
  Partition (Lookup (Close storage12)) id [p1; pBad] = Err ErrStorageFailure ∧
  Partition (Lookup (Close storage12)) id [p1; pBad] ≠ Err ErrInvalidStructure.
Proof.
  split_and!; [by vm_compute | by vm_compute | by vm_compute].
Qed.


(** [p3] alone matches nothing; with [p1] next to it the call succeeds. *)
Lemma Partition_NotFound_witness :
  Partition (Lookup storage12) reverse [p3] = Err ErrNotFound ∧
  ∃ res, Partition (Lookup storage12) reverse [p3; p1] = Ok res ∧ res ≠ [].
Proof.
  split.
  - apply (Partition_NotFound (Lookup storage12) reverse reverse_Permutation [p3]).
    + intros packet ->%list_elem_of_singleton.
      apply readable_sample; [reflexivity | exact reachable_storage12 | by eexists].
    + intros packet devAddr entries ->%list_elem_of_singleton.
      vm_compute. intros [= <-] [= <-].
      repeat constructor; vm_compute; discriminate.
  - apply (Partition_NotFound (Lookup storage12) reverse reverse_Permutation [p3; p1]).
    + intros packet [->| ->]%elem_of_2;
        (apply readable_sample; [reflexivity | exact reachable_storage12 | by eexists]).
    + exists p1, addrA, [e1; e2], e1. split_and!.
      * right. left.
      * reflexivity.
      * vm_compute. reflexivity.
      * left.
      * vm_compute. reflexivity.
Defined.

(** [p1] and [p4] belong to one device; [p2], between them, to another. *)
Lemma Partition_order_witness :
  Packets (partitionX [p1; p4]) =
    routed (Lookup storage12) (Id (partitionX [p1; p4])) [p1; p2; p4] ∧
  Packets (partitionX [p1; p4]) `sublist_of` [p1; p2; p4] ∧
  Packets (partitionX [p1; p4]) ≠ [] ∧
  Id (partitionX [p1; p4]) = newPartitionId (partitionEntry (partitionX [p1; p4])) ∧
  last (Packets (partitionX [p1; p4])) ≫= matchOf (Lookup storage12)
    = Some (partitionEntry (partitionX [p1; p4])).
Proof.
  apply (Partition_order (Lookup storage12) reverse reverse_Permutation
           [p1; p2; p4] [partitionX [p1; p4]; partitionY [p2]]).
  - vm_compute. reflexivity.
  - left.
Defined.

(** On [pErr] the check fails with an error under the key of [e1]; the
    packet goes on to [e2]. *)
Lemma ValidateMIC_error_skipped_example :
  core.ValidateMIC pErr (NwkSKey e1) = Err ErrInvalidStructure ∧
  chooseEntry pErr [e1; e2] = (Some e2, [e1; e2]) ∧
  Partition (Lookup storage12) id [pErr] = Ok [partitionY [pErr]].
Proof. split_and!; by vm_compute. Qed.

(** The scenario of two devices on one address: [p1] goes with [e1], [p2]
    with [e2], and [p3], valid under neither key, appears nowhere. *)
Lemma Partition_two_devices :
  Partition (Lookup storage12) reverse [p1; p2; p3] =
    Ok [partitionX [p1]; partitionY [p2]].
Proof. by vm_compute. Qed.

(** * More on the partitioner *)

(** ** The loop, continued *)

Section partitionPackets_more.
Context {Packet : Type} {ops : core.PacketOps Packet}.
Variable Lookup : lorawan.DevAddr → result (list handlerEntry).

Implicit Types (partitions : gmap partitionId (handlerPartition Packet)).
Implicit Types (packet : Packet) (packets : list Packet) (id : partitionId).

Lemma partitionPackets_app pre post partitions :
  partitionPackets Lookup (pre ++ post) partitions =
    (partitions' ←! partitionPackets Lookup pre partitions;
     partitionPackets Lookup post partitions').
Proof.
  revert partitions. induction pre as [|q pre IH]; intros partitions; [done|].
  simpl app. rewrite !partitionPackets_step.
  destruct (core.DevAddr q) as [devAddr|]; [|done].
  destruct (Lookup devAddr) as [entries|]; [|done]. apply IH.
Qed.

(** The loop fails on a packet that is not [readable], whatever follows it
    and whatever has been collected. *)
Lemma partitionPackets_not_readable (bad : Packet) :
  ¬ readable Lookup bad →
  ∃ e, (∀ post' partitions',
          partitionPackets Lookup (bad :: post') partitions' = Err e) ∧
       ((∃ e', core.DevAddr bad = Err e' ∧ e = ErrInvalidStructure) ∨
        (∃ devAddr, core.DevAddr bad = Ok devAddr ∧ Lookup devAddr = Err e)).
Proof.
  intros Hbad.
  destruct (core.DevAddr bad) as [devAddr|e'] eqn:Haddr.
  - destruct (Lookup devAddr) as [entries|e] eqn:Hlook.
    + destruct Hbad. by exists devAddr, entries.
    + exists e. split; [|right; by exists devAddr].
      intros post' partitions'. by rewrite partitionPackets_step, Haddr, Hlook.
  - exists ErrInvalidStructure. split; [|left; by exists e'].
    intros post' partitions'. by rewrite partitionPackets_step, Haddr.
Qed.

Lemma partitionPackets_Ok_readable packets partitions partitions' :
  partitionPackets Lookup packets partitions = Ok partitions' →
  Forall (readable Lookup) packets.
Proof.
  revert partitions. induction packets as [|packet packets IH]; intros partitions.
  { by constructor. }
  rewrite partitionPackets_step.
  destruct (core.DevAddr packet) as [devAddr|] eqn:Haddr; [|done].
  destruct (Lookup devAddr) as [entries|] eqn:Hlook; [|done].
  intros Hloop. constructor; [by exists devAddr, entries | by eapply IH].
Qed.

(** Where a failure of the loop comes from: the first packet that is not
    [readable]. *)
Lemma partitionPackets_Err packets partitions e :
  partitionPackets Lookup packets partitions = Err e →
  ∃ pre packet post,
    packets = pre ++ packet :: post ∧ Forall (readable Lookup) pre ∧
    ((∃ e', core.DevAddr packet = Err e' ∧ e = ErrInvalidStructure) ∨
     (∃ devAddr, core.DevAddr packet = Ok devAddr ∧ Lookup devAddr = Err e)).
Proof.
  revert partitions. induction packets as [|packet packets IH]; intros partitions.
  { done. }
  rewrite partitionPackets_step.
  destruct (core.DevAddr packet) as [devAddr|e'] eqn:Haddr.
  - destruct (Lookup devAddr) as [entries|e''] eqn:Hlook.
    + intros (pre & bad & post & -> & Hpre & Hbad)%IH.
      exists (packet :: pre), bad, post. split_and!; [done| |done].
      constructor; [|done]. by exists devAddr, entries.
    + intros [= ->]. exists [], packet, packets. split_and!; [done..|].
      right. by exists devAddr.
  - intros [= <-]. exists [], packet, packets. split_and!; [done..|].
    left. by exists e'.
Qed.

(** All the packets held by the partitions of a map. *)
Lemma packets_assign partitions packet entry :
  map_to_list (assign partitions packet entry) ≫= (λ x, Packets x.2) ≡ₚ
  packet :: (map_to_list partitions ≫= (λ x, Packets x.2)).
Proof.
  unfold assign. set (id := newPartitionId entry).
  destruct (partitions !! id) as [P|] eqn:Hid; simpl.
  - rewrite <- (insert_delete_eq partitions).
    rewrite map_to_list_insert by apply lookup_delete_eq.
    rewrite <- (map_to_list_delete partitions id P Hid).
    rewrite !bind_cons. simpl. rewrite <- app_assoc. simpl.
    by rewrite <- Permutation_middle.
  - rewrite map_to_list_insert by done. by rewrite bind_cons.
Qed.

Lemma packets_partitionPackets packets partitions partitions' :
  partitionPackets Lookup packets partitions = Ok partitions' →
  map_to_list partitions' ≫= (λ x, Packets x.2) ≡ₚ
  (map_to_list partitions ≫= (λ x, Packets x.2)) ++
  filter (λ packet, is_Some (matchOf Lookup packet)) packets.
Proof.
  revert partitions. induction packets as [|packet packets IH]; intros partitions.
  { simpl. intros [= <-]. by rewrite app_nil_r. }
  rewrite partitionPackets_step.
  destruct (core.DevAddr packet) as [devAddr|] eqn:Haddr; [|done].
  destruct (Lookup devAddr) as [entries|] eqn:Hlook; [|done].
  intros Hloop. rewrite (IH _ Hloop), filter_cons. clear IH Hloop.
  destruct (matchOf Lookup packet) as [entry|] eqn:Hmatch.
  - rewrite decide_True by done. rewrite packets_assign.
    by rewrite <- Permutation_middle.
  - by rewrite decide_False by (by intros [? ?]).
Qed.
End partitionPackets_more.

(** ** The call as a whole *)

Section Partition_more.
Context {Packet : Type} {ops : core.PacketOps Packet}.
Variable Lookup : lorawan.DevAddr → result (list handlerEntry).
Variable rangeOrder :
  list (partitionId * handlerPartition Packet) →
  list (partitionId * handlerPartition Packet).
Hypothesis rangeOrder_perm : ∀ l, rangeOrder l ≡ₚ l.

Implicit Types (partitions : gmap partitionId (handlerPartition Packet)).
Implicit Types (packet : Packet) (packets : list Packet) (id : partitionId).
Implicit Types (P : handlerPartition Packet) (res : list (handlerPartition Packet)).

Lemma routed_nil_iff packets :
  (∀ id, routed Lookup id packets = []) ↔
  Forall (λ packet, matchOf Lookup packet = None) packets.
Proof.
  rewrite Forall_forall. split.
  - intros Hnil packet Hin.
    destruct (matchOf Lookup packet) as [entry|] eqn:Hmatch; [|done].
    assert (packet ∈ routed Lookup (newPartitionId entry) packets) as Hr
      by (apply elem_of_routed; by rewrite Hmatch).
    rewrite Hnil in Hr. by apply not_elem_of_nil in Hr.
  - intros Hnone id. apply elem_of_nil_inv. intros packet [Hin Hid]%elem_of_routed.
    by rewrite (Hnone packet Hin) in Hid.
Qed.

Lemma loop_empty_iff packets partitions :
  partitionPackets Lookup packets ∅ = Ok partitions →
  partitions = ∅ ↔ Forall (λ packet, matchOf Lookup packet = None) packets.
Proof.
  intros Hloop. rewrite <- routed_nil_iff. split.
  - intros -> id.
    pose proof (partitionPackets_lookup _ _ _ _ id Hloop) as Hid.
    rewrite !lookup_empty in Hid.
    destruct (last (routed Lookup id packets) ≫= matchOf Lookup) as [entry|] eqn:Hlast;
      [done|].
    destruct (decide (routed Lookup id packets = [])) as [|Hne]; [done|].
    destruct (last_routed Lookup id packets Hne) as (q & c & Hq & Hc & _).
    rewrite Hq in Hlast. simpl in Hlast. congruence.
  - intros Hnil. apply map_eq. intros id.
    rewrite (partitionPackets_lookup _ _ _ _ id Hloop), Hnil. done.
Qed.

Lemma Partition_of_loop packets partitions :
  partitionPackets Lookup packets ∅ = Ok partitions →
  Partition Lookup rangeOrder packets =
    if decide (partitions = ∅) then Err ErrNotFound
    else Ok (rangeOrder (map_to_list partitions)).*2.
Proof.
  intros Hloop. unfold Partition. rewrite Hloop. simpl.
  case_decide as Hlen; case_decide as Hempty; try done.
  - destruct Hempty. apply map_to_list_empty_iff.
    apply length_zero_iff_nil in Hlen. apply fmap_nil_inv in Hlen.
    apply Permutation_nil_r. by rewrite <- (rangeOrder_perm _), Hlen.
  - destruct Hlen. subst partitions. rewrite map_to_list_empty.
    assert (rangeOrder [] = []) as -> by (by apply Permutation_nil_r). done.
Qed.

(** X1.  Where an error of [Partition] comes from.  Either the loop stopped
    at the first packet that is not readable, with [ErrInvalidStructure]
    when its address could not be read and with the error of [Lookup],
    unchanged, when its lookup failed; or every packet was readable, none
    had a candidate accepted by its integrity check, and the error is
    [ErrNotFound].  No other error is ever returned: none of
    [ValidateMIC] in particular. *)
Theorem Partition_Err_origin packets e :
  Partition Lookup rangeOrder packets = Err e →
  (∃ pre packet post,
     packets = pre ++ packet :: post ∧ Forall (readable Lookup) pre ∧
     ((∃ e', core.DevAddr packet = Err e' ∧ e = ErrInvalidStructure) ∨
      (∃ devAddr, core.DevAddr packet = Ok devAddr ∧ Lookup devAddr = Err e))) ∨
  (e = ErrNotFound ∧ Forall (readable Lookup) packets ∧
   Forall (λ packet, matchOf Lookup packet = None) packets).
Proof.
  destruct (partitionPackets Lookup packets ∅) as [partitions|e'] eqn:Hloop.
  - rewrite (Partition_of_loop _ _ Hloop). case_decide as Hempty; [|done].
    intros [= <-]. right. split_and!; [done| |].
    + by eapply partitionPackets_Ok_readable.
    + by apply (loop_empty_iff packets partitions).
  - unfold Partition. rewrite Hloop. simpl. intros [= ->]. left.
    by eapply partitionPackets_Err.
Qed.


Lemma matchOf_Some packet entry :
  matchOf Lookup packet = Some entry →
  validates packet entry ∧
  ∃ devAddr entries,
    core.DevAddr packet = Ok devAddr ∧ Lookup devAddr = Ok entries ∧ entry ∈ entries.
Proof.
  unfold matchOf. intros Hmatch.
  destruct (core.DevAddr packet) as [devAddr|] eqn:Haddr; [|done].
  destruct (Lookup devAddr) as [entries|] eqn:Hlook; [|done].
  apply chooseEntry_Some in Hmatch as (l1 & l2 & -> & Hv & _).
  split; [done|]. exists devAddr, (l1 ++ entry :: l2). split_and!; [done..|].
  apply elem_of_app. right. by left.
Qed.

Lemma loop_keys packets partitions id P :
  partitionPackets Lookup packets ∅ = Ok partitions →
  partitions !! id = Some P → Id P = id ∧ Packets P ≠ [].
Proof.
  intros Hloop. rewrite (partitionPackets_lookup _ _ _ _ id Hloop), lookup_empty.
  destruct (last (routed Lookup id packets) ≫= matchOf Lookup) as [entry|] eqn:Hlast;
    [|done].
  intros [= <-]. simpl. split; [done|]. intros Hnil. by rewrite Hnil in Hlast.
Qed.

Lemma length_bind_nonempty {A B : Type} (f : A → list B) (l : list A) :
  Forall (λ x, f x ≠ []) l → length l ≤ length (l ≫= f).
Proof.
  induction 1 as [|x l Hx _ IH]; [done|].
  rewrite bind_cons, length_app. simpl.
  destruct (f x); [done|]. simpl. lia.
Qed.


Lemma Partition_keys packets partitions :
  partitionPackets Lookup packets ∅ = Ok partitions →
  Forall (λ x, Id x.2 = x.1 ∧ Packets x.2 ≠ []) (map_to_list partitions).
Proof.
  intros Hloop. apply Forall_forall. intros [id P] Hin%elem_of_map_to_list.
  by apply (loop_keys packets partitions).
Qed.

Lemma Partition_NoDup_ids packets res :
  Partition Lookup rangeOrder packets = Ok res → NoDup (Id <$> res).
Proof.
  intros (_ & partitions & Hloop & ->)%Partition_Ok.
  pose proof (Partition_keys _ _ Hloop) as Hkeys.
  rewrite rangeOrder_perm, <- list_fmap_compose.
  rewrite (list_fmap_ext (Id ∘ snd) fst (map_to_list partitions));
    [apply NoDup_fst_map_to_list|].
  intros i x Hx. rewrite Forall_lookup in Hkeys. by apply (Hkeys i x).
Qed.

(** X3.  The partitions of a successful call have pairwise distinct ids,
    and there are at most as many of them as packets in the batch. *)
Theorem Partition_ids_distinct packets res :
  Partition Lookup rangeOrder packets = Ok res →
  NoDup (Id <$> res) ∧ length res ≤ length packets.
Proof.
  intros Hres. split; [by eapply Partition_NoDup_ids|].
  destruct (Partition_Ok _ _ _ _ Hres) as (_ & partitions & Hloop & ->).
  pose proof (Partition_keys _ _ Hloop) as Hkeys.
  rewrite length_fmap, rangeOrder_perm.
  etrans; [apply (length_bind_nonempty (λ x, Packets x.2))|].
  { eapply Forall_impl; [done|]. by intros x [_ ?]. }
  rewrite (packets_partitionPackets _ _ _ _ Hloop), map_to_list_empty. simpl.
  apply length_filter.
Qed.


(** X5.  A packet none of whose candidates is accepted by its integrity
    check, or whose address has no candidate at all, is in no partition of
    a successful call. *)
Theorem Partition_drops_unmatched packets res packet devAddr entries :
  Partition Lookup rangeOrder packets = Ok res →
  core.DevAddr packet = Ok devAddr →
  Lookup devAddr = Ok entries →
  Forall (λ c, ¬ validates packet c) entries →
  ∀ P, P ∈ res → packet ∉ Packets P.
Proof.
  intros Hres Haddr Hlook Hnone P HP Hin.
  apply (elem_of_Partition Lookup rangeOrder rangeOrder_perm packets res) in HP
    as (entry & _ & HP); [|done].
  rewrite HP in Hin. simpl in Hin. apply elem_of_routed in Hin as [_ Hid].
  unfold matchOf in Hid. rewrite Haddr, Hlook, chooseEntry_all_rejected in Hid; done.
Qed.

(** X6.  Every packet of every partition of a successful call passed its
    integrity check: under the key of an entry that is stored under the
    packet's own address and has the partition's id. *)
Theorem Partition_packets_validated packets res P packet :
  Partition Lookup rangeOrder packets = Ok res →
  P ∈ res → packet ∈ Packets P →
  packet ∈ packets ∧
  ∃ devAddr entries entry,
    core.DevAddr packet = Ok devAddr ∧ Lookup devAddr = Ok entries ∧
    entry ∈ entries ∧ validates packet entry ∧ newPartitionId entry = Id P.
Proof.
  intros Hres HP Hin.
  apply (elem_of_Partition Lookup rangeOrder rangeOrder_perm packets res) in HP
    as (entry' & _ & HPeq); [|done].
  rewrite HPeq in Hin |- *. simpl in *.
  apply elem_of_routed in Hin as [Hin Hid]. split; [done|].
  destruct (matchOf Lookup packet) as [entry|] eqn:Hmatch; [|done].
  injection Hid as Hid.
  destruct (matchOf_Some _ _ Hmatch) as (Hv & devAddr & entries & Haddr & Hlook & He).
  by exists devAddr, entries, entry.
Qed.

(** X7.  When the entries the packets of the batch are resolved to are told
    apart by their ids, the entry of each partition of a successful call is
    the entry each of its packets was resolved to, and its key validates
    every packet of the partition. *)
Theorem Partition_entry_validates packets res :
  Partition Lookup rangeOrder packets = Ok res →
  (∀ q q' c c',
     q ∈ packets → q' ∈ packets →
     matchOf Lookup q = Some c → matchOf Lookup q' = Some c' →
     newPartitionId c = newPartitionId c' → c = c') →
  ∀ P packet, P ∈ res → packet ∈ Packets P →
    matchOf Lookup packet = Some (partitionEntry P) ∧
    validates packet (partitionEntry P).
Proof.
  intros Hres Hinj P packet HP Hin.
  apply (elem_of_Partition Lookup rangeOrder rangeOrder_perm packets res) in HP
    as (entry & Hlast & HPeq); [|done].
  rewrite HPeq in Hin |- *. simpl in *.
  destruct (last (routed Lookup (Id P) packets)) as [q|] eqn:Hq; [|done].
  simpl in Hlast. apply last_Some_elem_of, elem_of_routed in Hq as [Hq Hqid].
  rewrite Hlast in Hqid. injection Hqid as Hqid.
  apply elem_of_routed in Hin as [Hin Hid].
  destruct (matchOf Lookup packet) as [c|] eqn:Hmatch; [|done].
  injection Hid as Hid.
  assert (c = entry) as -> by (apply (Hinj packet q); congruence).
  split; [done|]. by apply matchOf_Some.
Qed.

(** X10.  Offering the packets of a batch in another order keeps the call
    successful and keeps each partition's id and set of packets: each
    partition is found again under its id, its packets permuted.  Its
    entry is found again too when the entries the packets of the batch are
    resolved to are told apart by their ids. *)
Theorem Partition_batch_permuted packets packets' res :
  packets ≡ₚ packets' →
  Partition Lookup rangeOrder packets = Ok res →
  ∃ res',
    Partition Lookup rangeOrder packets' = Ok res' ∧
    ∀ P, P ∈ res →
      ∃ P', P' ∈ res' ∧ Id P' = Id P ∧ Packets P' ≡ₚ Packets P ∧
            ((∀ q q' c c',
                q ∈ packets → q' ∈ packets →
                matchOf Lookup q = Some c → matchOf Lookup q' = Some c' →
                newPartitionId c = newPartitionId c' → c = c') →
             partitionEntry P' = partitionEntry P).
Proof.
  intros Hperm Hres.
  assert (∀ id, routed Lookup id packets' ≡ₚ routed Lookup id packets) as Hrouted.
  { intros id. unfold routed. by rewrite Hperm. }
  destruct (Partition_Ok Lookup rangeOrder packets res Hres)
    as (Hne & partitions & Hloop & _).
  pose proof (partitionPackets_Ok_readable Lookup _ _ _ Hloop) as Hread.
  rewrite Hperm in Hread.
  destruct (partitionPackets_readable Lookup packets' ∅ Hread) as [partitions' Hloop'].
  pose proof (Partition_of_loop packets' partitions' Hloop') as Hres'.
  assert (∀ P, P ∈ res →
            ∃ P', partitions' !! Id P = Some P' ∧ Id P' = Id P ∧
                  Packets P' ≡ₚ Packets P ∧
                  ((∀ q q' c c',
                      q ∈ packets → q' ∈ packets →
                      matchOf Lookup q = Some c → matchOf Lookup q' = Some c' →
                      newPartitionId c = newPartitionId c' → c = c') →
                   partitionEntry P' = partitionEntry P)) as Hfound.
  { intros P HP.
    apply (elem_of_Partition Lookup rangeOrder rangeOrder_perm packets res) in HP
      as (entry & Hlast & HPeq); [|done].
    destruct (last_routed Lookup (Id P) packets') as (q & c & Hq & Hc & Hcid).
    { intros Hnil. specialize (Hrouted (Id P)). rewrite Hnil in Hrouted.
      symmetry in Hrouted. apply Permutation_nil_r in Hrouted.
      by rewrite Hrouted in Hlast. }
    eexists. rewrite (partitionPackets_lookup _ _ _ _ (Id P) Hloop'), Hq. simpl.
    rewrite Hc, lookup_empty. split_and!; [done..| |].
    - simpl. rewrite HPeq. simpl. apply Hrouted.
    - intros Hinj. simpl. rewrite HPeq. simpl.
      destruct (last (routed Lookup (Id P) packets)) as [q0|] eqn:Hq0; [|done].
      simpl in Hlast.
      pose proof (last_Some_elem_of _ _ Hq0) as [Hq0in Hq0id]%elem_of_routed.
      pose proof (last_Some_elem_of _ _ Hq) as [Hqin _]%elem_of_routed.
      rewrite Hlast in Hq0id. injection Hq0id as Hq0id.
      apply (Hinj q q0); [by rewrite Hperm|done..|congruence]. }
  destruct res as [|P0 res0]; [done|].
  destruct (Hfound P0) as (P0' & HP0' & _); [by left|].
  rewrite decide_False in Hres' by (intros ->; by rewrite lookup_empty in HP0').
  eexists. split; [done|]. intros P HP.
  destruct (Hfound P HP) as (P' & HP' & Hid & Hpk & Hentry). exists P'.
  split_and!; [|done..]. apply (elem_of_range rangeOrder rangeOrder_perm).
  by exists (Id P).
Qed.

Lemma packetsIn_none res id :
  (∀ P, P ∈ res → Id P ≠ id) → packetsIn res id = [].
Proof.
  unfold packetsIn. induction res as [|P res IH]; intros Hne; [done|].
  rewrite bind_cons, decide_False by (apply Hne; by left).
  apply IH. intros P' HP'. apply Hne. by right.
Qed.

Lemma packetsIn_unique res P :
  NoDup (Id <$> res) → P ∈ res → packetsIn res (Id P) = Packets P.
Proof.
  unfold packetsIn. induction res as [|P' res IH]; intros Hnd HP.
  { by apply elem_of_nil in HP. }
  rewrite fmap_cons in Hnd. apply NoDup_cons in Hnd as [Hnotin Hnd].
  rewrite bind_cons. apply elem_of_cons in HP as [->|HP].
  - rewrite decide_True by done. fold (packetsIn res (Id P')).
    rewrite packetsIn_none, app_nil_r; [done|].
    intros P HP Hid. apply Hnotin. rewrite <- Hid. by apply list_elem_of_fmap_2.
  - rewrite decide_False, IH; [done..|].
    intros Hid. apply Hnotin. rewrite Hid. by apply list_elem_of_fmap_2.
Qed.

Lemma packetsIn_Partition packets res id :
  Partition Lookup rangeOrder packets = Ok res →
  packetsIn res id = routed Lookup id packets.
Proof.
  intros Hres.
  destruct (decide (routed Lookup id packets = [])) as [Hnil|Hne].
  - rewrite Hnil. apply packetsIn_none. intros P HP <-.
    apply (elem_of_Partition Lookup rangeOrder rangeOrder_perm packets res) in HP
      as (entry & Hlast & _); [|done].
    by rewrite Hnil in Hlast.
  - destruct (last_routed Lookup id packets Hne) as (q & c & Hq & Hc & _).
    assert ({| partitionEntry := c; Id := id;
               Packets := routed Lookup id packets |} ∈ res) as HP.
    { apply (elem_of_Partition Lookup rangeOrder rangeOrder_perm packets res); [done|].
      exists c. simpl. by rewrite Hq. }
    pose proof (packetsIn_unique res _ (Partition_NoDup_ids _ _ Hres) HP) as Hu.
    by simpl in Hu.
Qed.

Lemma packetsFor_Partition packets id :
  Forall (readable Lookup) packets →
  packetsFor (Partition Lookup rangeOrder packets) id = routed Lookup id packets.
Proof.
  intros Hread.
  destruct (Partition Lookup rangeOrder packets) as [res|e] eqn:Hres; simpl.
  { by apply packetsIn_Partition. }
  destruct (partitionPackets_readable Lookup packets ∅ Hread) as [partitions Hloop].
  rewrite (Partition_of_loop _ _ Hloop) in Hres. case_decide as Hempty; [|done].
  rewrite (loop_empty_iff _ _ Hloop), <- routed_nil_iff in Hempty. by rewrite Hempty.
Qed.

(** X19.  A batch may be offered at once or in two parts: when the call on
    the whole batch succeeds, the packets it files under an id are those the
    call on the first part files under that id, followed by those the call
    on the second part files under it, a part in which nothing matches
    contributing none. *)
Theorem Partition_app packets1 packets2 res :
  Partition Lookup rangeOrder (packets1 ++ packets2) = Ok res →
  ∀ id,
    packetsIn res id =
      packetsFor (Partition Lookup rangeOrder packets1) id ++
      packetsFor (Partition Lookup rangeOrder packets2) id.
Proof.
  intros Hres id.
  destruct (Partition_Ok _ _ _ _ Hres) as (_ & partitions & Hloop & _).
  apply partitionPackets_Ok_readable, Forall_app in Hloop as [Hread1 Hread2].
  rewrite (packetsIn_Partition _ _ _ Hres), !packetsFor_Partition by done.
  unfold routed. apply filter_app.
Qed.

(** X9.  The call stops at the first packet that is not readable: it fails,
    and the packets after that one play no part in the error returned. *)
Theorem Partition_stops_at_failure pre bad post post' :
  ¬ readable Lookup bad →
  Partition Lookup rangeOrder (pre ++ bad :: post) =
  Partition Lookup rangeOrder (pre ++ bad :: post') ∧
  ∃ e, Partition Lookup rangeOrder (pre ++ bad :: post) = Err e.
Proof.
  intros Hbad.
  destruct (partitionPackets_not_readable Lookup bad Hbad) as (e & Hfail & _).
  unfold Partition. rewrite !partitionPackets_app.
  destruct (partitionPackets Lookup pre ∅) as [partitions|e']; cbn [result_bind].
  - rewrite !Hfail. split; [done|by exists e].
  - split; [done|by exists e'].
Qed.
End Partition_more.

(** ** The order of the visit *)

Section Partition_rangeOrder.
Context {Packet : Type} {ops : core.PacketOps Packet}.
Variable Lookup : lorawan.DevAddr → result (list handlerEntry).
Variables rangeOrder rangeOrder' :
  list (partitionId * handlerPartition Packet) →
  list (partitionId * handlerPartition Packet).
Hypothesis rangeOrder_perm : ∀ l, rangeOrder l ≡ₚ l.
Hypothesis rangeOrder'_perm : ∀ l, rangeOrder' l ≡ₚ l.

(** X8.  The order in which [range] visits the map decides nothing but the
    order of the list returned: two runs on the same batch fail with the
    same error, or return the same partitions up to their order. *)
Theorem Partition_rangeOrder_irrelevant (packets : list Packet) :
  (∀ e, Partition Lookup rangeOrder packets = Err e →
        Partition Lookup rangeOrder' packets = Err e) ∧
  (∀ res, Partition Lookup rangeOrder packets = Ok res →
          ∃ res', Partition Lookup rangeOrder' packets = Ok res' ∧ res ≡ₚ res').
Proof.
  destruct (partitionPackets Lookup packets ∅) as [partitions|e] eqn:Hloop.
  - rewrite (Partition_of_loop Lookup rangeOrder rangeOrder_perm _ _ Hloop).
    rewrite (Partition_of_loop Lookup rangeOrder' rangeOrder'_perm _ _ Hloop).
    case_decide; split; try done.
    intros res [= <-]. eexists. split; [done|].
    by rewrite rangeOrder_perm, rangeOrder'_perm.
  - unfold Partition. rewrite Hloop. simpl. split; [done|]. by intros res.
Qed.
End Partition_rangeOrder.

(** ** Partition ids *)

(** X11.  Two entries with fields of the sizes of their array types have
    the same partition id exactly when they have the same [AppEUI] and the
    same [DevAddr]: the session keys play no part in the id. *)
Theorem newPartitionId_inj (entry entry' : handlerEntry) :
  wf_handlerEntry entry → wf_handlerEntry entry' →
  newPartitionId entry = newPartitionId entry' ↔
  AppEUI entry = AppEUI entry' ∧ DevAddr entry = DevAddr entry'.
Proof.
  intros Hwf Hwf'. rewrite !newPartitionId_wf by done.
  destruct Hwf as (L1 & _ & _ & _), Hwf' as (L1' & _ & _ & _). split.
  - intros Heq. apply app_inj_1 in Heq; [done|congruence].
  - by intros [-> ->].
Qed.

(** * More on the codec *)

Lemma readField_app (buf field rest extra : list byte) :
  entryRW.readField buf = Some (field, rest) →
  entryRW.readField (buf ++ extra) = Some (field, rest ++ extra).
Proof.
  intros [-> Hlen]%readField_inv. rewrite <- app_assoc. by apply readField_framed.
Qed.

Lemma readUpTo_app (n : nat) (buf extra : list byte) :
  length (readUpTo n buf) = n → readUpTo n (buf ++ extra) = readUpTo n buf.
Proof.
  revert buf. induction n as [|n IH]; intros buf; [done|]. simpl.
  destruct (entryRW.readField buf) as [[field rest]|] eqn:Hread; [|done].
  rewrite (readField_app _ _ _ extra Hread). simpl. intros [= Hlen].
  by rewrite IH.
Qed.

(** What [UnmarshalBinary] does on an input that passes the guard: the
    fields that can be read are stored, and the call fails unless there
    were four. *)
Lemma UnmarshalBinary_readUpTo (entry : handlerEntry) (data : list byte) :
  4 ≤ length data →
  UnmarshalBinary (Some entry) data =
    (Some (storeFields entry (readUpTo 4 data)),
     if decide (length (readUpTo 4 data) = 4) then None
     else Some ErrInvalidStructure).
Proof.
  intros Hlen. unfold UnmarshalBinary. rewrite decide_False by lia.
  unfold entryRW.newEntryReadWriter. cbn [readUpTo].
  destruct (entryRW.readField data) as [[g1 r1]|] eqn:E1;
    [rewrite (Read_field _ _ _ _ _ E1) | by rewrite (Read_truncated _ _ _ E1)].
  destruct (entryRW.readField r1) as [[g2 r2]|] eqn:E2;
    [rewrite (Read_field _ _ _ _ _ E2) | by rewrite (Read_truncated _ _ _ E2)].
  destruct (entryRW.readField r2) as [[g3 r3]|] eqn:E3;
    [rewrite (Read_field _ _ _ _ _ E3) | by rewrite (Read_truncated _ _ _ E3)].
  destruct (entryRW.readField r3) as [[g4 r4]|] eqn:E4;
    [by rewrite (Read_field _ _ _ _ _ E4) | by rewrite (Read_truncated _ _ _ E4)].
Qed.

Lemma copy_length (dst src : list byte) : length (copy dst src) = length dst.
Proof. unfold copy. rewrite length_app, length_take, length_drop. lia. Qed.

Lemma storeFields_wf (entry : handlerEntry) (fields : list (list byte)) :
  wf_handlerEntry entry → wf_handlerEntry (storeFields entry fields).
Proof.
  intros (L1 & L2 & L3 & L4). unfold storeFields, wf_handlerEntry.
  destruct (fields !! 0), (fields !! 1), (fields !! 2), (fields !! 3); simpl;
    rewrite ?copy_length; done.
Qed.

(** X12.  Decoding is not atomic.  [UnmarshalBinary] stores the fields it
    can read in full, in their order, and fails with [ErrInvalidStructure]
    unless it read four.  When it fails, the receiver therefore keeps what
    it held except for the fields read before the failure, which are
    overwritten; an input shorter than four bytes leaves it untouched. *)
Theorem UnmarshalBinary_stores_fields_read (entry : handlerEntry) (data : list byte) :
  UnmarshalBinary (Some entry) data =
    (Some (storeFields entry (fieldsRead data)),
     if decide (length (fieldsRead data) = 4) then None
     else Some ErrInvalidStructure) ∧
  (length data < 4 → fieldsRead data = []) ∧
  storeFields entry [] = entry.
Proof.
  unfold fieldsRead. split_and!.
  - destruct (decide (length data < 4)) as [Hlen|Hlen].
    + unfold UnmarshalBinary. rewrite decide_True by done. by destruct entry.
    + by rewrite UnmarshalBinary_readUpTo by lia.
  - intros Hlen. by rewrite decide_True.
  - by destruct entry.
Qed.

(** The encoding of an entry cut in its third field, decoded into [e2]: the
    first two fields of [e2] are overwritten, the last two are not. *)
Lemma UnmarshalBinary_failure_example :
  UnmarshalBinary (Some e2)
    (take 31 (entryRW.framed appX ++ entryRW.framed key1 ++
              entryRW.framed addrB ++ entryRW.framed key1)) =
  (Some {| AppEUI := appX; AppSKey := key1; DevAddr := addrA; NwkSKey := key2 |},
   Some ErrInvalidStructure).
Proof. by vm_compute. Qed.

(** X13.  Bytes after the fourth field are ignored: an input that decodes
    without error decodes to the same entry, without error, whatever is
    appended to it. *)
Theorem UnmarshalBinary_trailing_bytes (entry : handlerEntry) (data extra : list byte) :
  snd (UnmarshalBinary (Some entry) data) = None →
  UnmarshalBinary (Some entry) (data ++ extra) = UnmarshalBinary (Some entry) data.
Proof.
  intros Hok. destruct (decide (length data < 4)) as [Hlen|Hlen].
  { unfold UnmarshalBinary in Hok. by rewrite decide_True in Hok. }
  rewrite UnmarshalBinary_readUpTo in Hok by lia. simpl in Hok.
  case_decide as Hfour; [|done].
  rewrite !UnmarshalBinary_readUpTo by (rewrite ?length_app; lia).
  by rewrite readUpTo_app.
Qed.

Lemma UnmarshalBinary_trailing_bytes_witness :
  UnmarshalBinary (Some zeroEntry)
    ((entryRW.framed appX ++ entryRW.framed keyS ++
      entryRW.framed addrA ++ entryRW.framed key1) ++ [xff; x00; x2a]) =
  UnmarshalBinary (Some zeroEntry)
    (entryRW.framed appX ++ entryRW.framed keyS ++
     entryRW.framed addrA ++ entryRW.framed key1).
Proof.
  apply (UnmarshalBinary_trailing_bytes zeroEntry
           (entryRW.framed appX ++ entryRW.framed keyS ++
            entryRW.framed addrA ++ entryRW.framed key1) [xff; x00; x2a]).
  vm_compute. reflexivity.
Defined.

(** * More on the registry *)

Lemma storeAll_snoc (s : handlerBoltStorage)
    (stored : list (lorawan.DevAddr * handlerEntry))
    (devAddr : lorawan.DevAddr) (entry : handlerEntry) :
  storeAll s (stored ++ [(devAddr, entry)]) =
    (s' ←! storeAll s stored; Store s' devAddr entry).
Proof. unfold storeAll. by rewrite foldl_app. Qed.

(** X14.  When entries are stored one after the other, under whatever
    addresses, and every [Store] succeeds, [Lookup] returns for each
    address what it returned before, followed by the entries stored under
    that address, and only those, in the order in which they were stored. *)
Theorem Lookup_after_stores (s s' : handlerBoltStorage)
    (stored : list (lorawan.DevAddr * handlerEntry))
    (devAddr : lorawan.DevAddr) (old : list handlerEntry) :
  Forall (λ x, wf_handlerEntry x.2) stored →
  storeAll s stored = Ok s' →
  Lookup s devAddr = Ok old →
  Lookup s' devAddr = Ok (old ++ (filter (λ x, x.1 = devAddr) stored).*2).
Proof.
  intros Hwf Hall Hold. revert s' Hall.
  induction stored as [|[a entry] stored IH] using rev_ind; intros s' Hall.
  { injection Hall as <-. by rewrite app_nil_r. }
  apply Forall_app in Hwf as [Hwf [Hentry _]%Forall_cons].
  rewrite storeAll_snoc in Hall.
  destruct (storeAll s stored) as [s0|] eqn:Hs0; [|done]. simpl in Hall.
  specialize (IH Hwf s0 eq_refl).
  rewrite filter_app, fmap_app, filter_cons, filter_nil. simpl.
  case_decide as Ha.
  - subst a. rewrite app_assoc.
    by apply (Store_Lookup_step s0 s' devAddr entry).
  - rewrite app_nil_r, <- IH. by apply (Store_Lookup_other s0 s' a devAddr entry).
Qed.

(** Three entries stored on a storage that already holds [e1] under
    [addrA]. *)
Lemma Lookup_after_stores_witness :
  Lookup (storageOr (storeAll storage1 [(addrA, e2); (addrB, e1'); (addrA, e3)])) addrA
    = Ok ([e1] ++ (filter (λ x, x.1 = addrA)
                     [(addrA, e2); (addrB, e1'); (addrA, e3)]).*2).
Proof.
  apply (Lookup_after_stores storage1 _ [(addrA, e2); (addrB, e1'); (addrA, e3)]).
  - repeat constructor; vm_compute; done.
  - vm_compute. reflexivity.
  - vm_compute. reflexivity.
Defined.

(** * The monitor service *)

(** X17.  Each method of the monitor client opens the stream that bears its
    name: its index into the table of stream descriptors is in range and
    picks the descriptor whose [StreamName] is the method's name, the path
    it asks for is the service name and that name, the descriptor is
    client-streaming only, and what [grpc.NewClientStream] answers, error
    or stream, is what the method returns. *)
Theorem monitorClient_opens_own_stream (ServerStream ClientStream Error : Type) :
  Forall2
    (λ method desc,
       monitor.StreamName desc = method.1 ∧
       monitor.ClientStreams desc = true ∧ monitor.ServerStreams desc = false ∧
       ∀ NewClientStream,
         method.2 NewClientStream =
           Some (NewClientStream desc
                   ("/" +:+ monitor.ServiceName
                              (monitor._Monitor_serviceDesc ServerStream Error)
                        +:+ "/" +:+ method.1)))
    (monitor.clientMethods ServerStream ClientStream Error)
    (monitor.Streams (monitor._Monitor_serviceDesc ServerStream Error)).
Proof.
  unfold monitor.clientMethods, monitor._Monitor_serviceDesc. simpl.
  repeat (constructor;
          [split_and!; [reflexivity..|];
           intros NewClientStream; vm_compute;
           by match goal with |- context [NewClientStream ?d ?p] =>
                destruct (NewClientStream d p) end|]).
  constructor.
Qed.

(** X18.  The table of stream descriptors serves the interface
    [MonitorServer] method by method: the handler of each descriptor calls
    the server method whose name is the descriptor's [StreamName], on the
    stream it was given, and returns what that method returns; no two
    descriptors share a name. *)
Theorem Monitor_handlers_dispatch (ServerStream Error : Type) :
  Forall2
    (λ desc method,
       monitor.StreamName desc = method.1 ∧
       ∀ srv stream, monitor.Handler desc srv stream = method.2 srv stream)
    (monitor.Streams (monitor._Monitor_serviceDesc ServerStream Error))
    (monitor.serverMethods ServerStream Error) ∧
  NoDup (monitor.StreamName <$>
           monitor.Streams (monitor._Monitor_serviceDesc ServerStream Error)).
Proof.
  split.
  - unfold monitor.serverMethods, monitor._Monitor_serviceDesc. simpl.
    repeat (constructor; [split; [reflexivity|intros srv stream; reflexivity]|]).
    constructor.
  - refine (bool_decide_unpack _ _). by vm_compute.
Qed.

(** * The further results on the sample data *)

Lemma Partition_Err_origin_witness :
  (∃ pre packet post,
     [p1; pBad; p2] = pre ++ packet :: post ∧ Forall (readable (Lookup storage12)) pre ∧
     ((∃ e', core.DevAddr packet = Err e' ∧ ErrInvalidStructure = ErrInvalidStructure) ∨
      (∃ devAddr, core.DevAddr packet = Ok devAddr ∧
                  Lookup storage12 devAddr = Err ErrInvalidStructure))) ∨
  (ErrInvalidStructure = ErrNotFound ∧ Forall (readable (Lookup storage12)) [p1; pBad; p2] ∧
   Forall (λ packet, matchOf (Lookup storage12) packet = None) [p1; pBad; p2]).
Proof.
  apply (Partition_Err_origin (Lookup storage12) reverse reverse_Permutation
           [p1; pBad; p2] ErrInvalidStructure).
  vm_compute. reflexivity.
Defined.


Lemma Partition_ids_distinct_witness :
  NoDup (Id <$> [partitionX [p1; p4]; partitionY [p2]]) ∧
  length [partitionX [p1; p4]; partitionY [p2]] ≤ length [p1; p2; p4].
Proof.
  apply (Partition_ids_distinct (Lookup storage12) reverse reverse_Permutation
           [p1; p2; p4] [partitionX [p1; p4]; partitionY [p2]]).
  vm_compute. reflexivity.
Defined.


Lemma Partition_drops_unmatched_witness :
  Forall (λ P, p3 ∉ Packets P) [partitionX [p1]; partitionY [p2]].
Proof.
  apply Forall_forall.
  apply (Partition_drops_unmatched (Lookup storage12) reverse reverse_Permutation
           [p1; p2; p3] [partitionX [p1]; partitionY [p2]] p3 addrA [e1; e2]).
  - vm_compute. reflexivity.
  - reflexivity.
  - vm_compute. reflexivity.
  - repeat constructor; vm_compute; discriminate.
Defined.

Lemma Partition_packets_validated_witness :
  p2 ∈ [p1; p2; p3] ∧
  ∃ devAddr entries entry,
    core.DevAddr p2 = Ok devAddr ∧ Lookup storage12 devAddr = Ok entries ∧
    entry ∈ entries ∧ validates p2 entry ∧
    newPartitionId entry = Id (partitionY [p2]).
Proof.
  apply (Partition_packets_validated (Lookup storage12) reverse reverse_Permutation
           [p1; p2; p3] [partitionX [p1]; partitionY [p2]] (partitionY [p2]) p2).
  - vm_compute. reflexivity.
  - right. left.
  - left.
Defined.

Lemma Partition_entry_validates_witness :
  Forall (λ P, Forall (λ packet,
                         matchOf (Lookup storage12) packet = Some (partitionEntry P) ∧
                         validates packet (partitionEntry P)) (Packets P))
    [partitionX [p1]; partitionY [p2]].
Proof.
  apply Forall_forall. intros P HP. apply Forall_forall. intros packet Hin.
  revert P packet HP Hin.
  apply (Partition_entry_validates (Lookup storage12) reverse reverse_Permutation
           [p1; p2; p3] [partitionX [p1]; partitionY [p2]]).
  - vm_compute. reflexivity.
  - intros q q' c c' [->|[->| ->]]%elem_of_3 [->|[->| ->]]%elem_of_3;
      vm_compute; intros Hc Hc'; try discriminate Hc; try discriminate Hc';
      injection Hc as <-; injection Hc' as <-; try done; discriminate.
Defined.

Lemma Partition_rangeOrder_irrelevant_witness :
  (∀ e, Partition (Lookup storage12) id [p1; p2; p3] = Err e →
        Partition (Lookup storage12) reverse [p1; p2; p3] = Err e) ∧
  (∀ res, Partition (Lookup storage12) id [p1; p2; p3] = Ok res →
          ∃ res', Partition (Lookup storage12) reverse [p1; p2; p3] = Ok res' ∧
                  res ≡ₚ res').
Proof.
  apply (Partition_rangeOrder_irrelevant (Lookup storage12) id reverse
           (λ l, Permutation_refl l) reverse_Permutation [p1; p2; p3]).
Defined.

Lemma Partition_stops_at_failure_witness :
  Partition (Lookup storage12) id ([p1] ++ pBad :: [p2]) =
  Partition (Lookup storage12) id ([p1] ++ pBad :: [p3; p4]) ∧
  ∃ e, Partition (Lookup storage12) id ([p1] ++ pBad :: [p2]) = Err e.
Proof.
  apply (Partition_stops_at_failure (Lookup storage12) id [p1] pBad [p2] [p3; p4]).
  intros (devAddr & entries & Haddr & _). vm_compute in Haddr. discriminate.
Defined.

(** A batch of two devices, offered backwards. *)
Lemma Partition_batch_permuted_witness :
  ∃ res',
    Partition (Lookup storage12) reverse (reverse [p1; p2; p4]) = Ok res' ∧
    Forall (λ P, ∃ P', P' ∈ res' ∧ Id P' = Id P ∧ Packets P' ≡ₚ Packets P ∧
                       partitionEntry P' = partitionEntry P)
      [partitionX [p1; p4]; partitionY [p2]].
Proof.
  destruct (Partition_batch_permuted (Lookup storage12) reverse reverse_Permutation
              [p1; p2; p4] (reverse [p1; p2; p4])
              [partitionX [p1; p4]; partitionY [p2]])
    as (res' & Hres' & Hall).
  - symmetry. apply reverse_Permutation.
  - vm_compute. reflexivity.
  - exists res'. split; [done|]. apply Forall_forall. intros P HP.
    destruct (Hall P HP) as (P' & HP' & Hid & Hpackets & Hentry).
    exists P'. split_and!; [done..|]. apply Hentry.
    intros q q' c c' [->|[->| ->]]%elem_of_3 [->|[->| ->]]%elem_of_3;
      vm_compute; intros Hc Hc'; try discriminate Hc; try discriminate Hc';
      injection Hc as <-; injection Hc' as <-; try done; discriminate.
Defined.

(** [e1] and [e1'] differ in their network session key only. *)
Lemma newPartitionId_inj_witness :
  newPartitionId e1 = newPartitionId e1' ↔
  AppEUI e1 = AppEUI e1' ∧ DevAddr e1 = DevAddr e1'.
Proof.
  apply (newPartitionId_inj e1 e1'); vm_compute; done.
Defined.

(** [p3] alone matches nothing; the two parts together give what the whole
    batch gives. *)
Lemma Partition_app_witness :
  packetsIn [partitionX [p1; p4]; partitionY [p2]] (appX ++ addrA) =
    packetsFor (Partition (Lookup storage12) reverse [p1; p2]) (appX ++ addrA) ++
    packetsFor (Partition (Lookup storage12) reverse [p3; p4]) (appX ++ addrA).
Proof.
  apply (Partition_app (Lookup storage12) reverse reverse_Permutation
           [p1; p2] [p3; p4] [partitionX [p1; p4]; partitionY [p2]]).
  vm_compute. reflexivity.
Defined.
